(** * Breakpoints.ts: the breakpoint registry of fresnel

    A shallow embedding of [src/Breakpoints.ts] (class [Breakpoints]) and the
    properties of its query compilation, enumeration, rule export and
    render-admission test.

    Conventions of the embedding.
    - A breakpoint width is an integer ([Z]). The comparisons, [Math.min]
      and [Math.max] of the source are exact on integers. [width - 1] and
      [`${width}`] are the integer difference and the decimal text for the
      safe integers ([safeInteger], up to [2^53 - 1] in size); beyond them
      the source rounds and prints an exponent, which is not modelled, and
      the statements about the text of a width assume [safeWidths]. The
      values [undefined], [NaN] and the infinities of the empty
      [Math.min()] and [Math.max()] are modelled as such.
    - The breakpoint object [{ [key: string]: number }] is the list of its own
      properties in the order [Object.keys] enumerates them, every name once
      ([NoDup (Object_keys o)]). A read of a name that is no own property is
      [undefined] unless [Object.prototype] has the name ([inheritedName]):
      there the source reads an inherited function, which is not modelled,
      and the statements about names that are no own names assume
      [inheritedName b = false].
    - A directive value is the record of its own properties; a value with a
      property that is present and [undefined] is not represented.
    - A [throw] is the [Throw] of the [Completion] type.
    - [propKey], [createClassName] and [createRuleSet] come from [./Utils],
      which is not part of the sources at hand: they are parameters of the
      class. *)

From Stdlib Require Import ZArith List String Ascii Bool Lia.
From Stdlib Require Import Permutation Sorted DecimalString.
Import ListNotations.

Local Open Scope Z_scope.
Local Open Scope list_scope.

Infix "+++" := String.append (right associativity, at level 60).

(** ** The JavaScript values the class computes with *)

Module JS.

(** The numbers: integers, [NaN] and the two infinities ([Math.min()] is
    [Infinity], [Math.max()] is [-Infinity]). *)
Inductive number : Type :=
| Num (z : Z)
| NaN
| Infinity
| NegInfinity.

(** What a property read of the breakpoint object gives. *)
Inductive value : Type :=
| undefined
| Number (n : number).

Definition ToNumber (v : value) : number :=
  match v with
  | undefined => NaN
  | Number n => n
  end.

Definition decimal (z : Z) : string := NilZero.string_of_int (Z.to_int z).

(** [`${v}`]; for a number that is a safe integer (see [safeInteger]), the
    decimal text. *)
Definition ToString (v : value) : string :=
  match v with
  | undefined => "undefined"
  | Number (Num z) => decimal z
  | Number NaN => "NaN"
  | Number Infinity => "Infinity"
  | Number NegInfinity => "-Infinity"
  end.

(** [v - k] for the literal [k = 1] of the source; the integer difference
    for a number [v] that is a safe integer (see [safeInteger]). *)
Definition sub (v : value) (k : Z) : value :=
  match ToNumber v with
  | Num z => Number (Num (z - k))
  | n => Number n
  end.

(** [a < b] on numbers; a comparison with [NaN] is false. *)
Definition number_lt (a b : number) : bool :=
  match a, b with
  | NaN, _ | _, NaN => false
  | Num x, Num y => x <? y
  | NegInfinity, NegInfinity => false
  | NegInfinity, _ => true
  | Infinity, _ => false
  | Num _, Infinity => true
  | Num _, NegInfinity => false
  end.

Definition is_NaN (a : number) : bool :=
  match a with NaN => true | _ => false end.

(** [a < b] *)
Definition lt (a b : value) : bool := number_lt (ToNumber a) (ToNumber b).

(** [a >= b]: false when either side is [NaN], else the negation of [a < b]. *)
Definition ge (a b : value) : bool :=
  if is_NaN (ToNumber a) || is_NaN (ToNumber b) then false
  else negb (number_lt (ToNumber a) (ToNumber b)).

Definition number_min (a b : number) : number :=
  if is_NaN a || is_NaN b then NaN
  else if number_lt b a then b else a.

Definition number_max (a b : number) : number :=
  if is_NaN a || is_NaN b then NaN
  else if number_lt a b then b else a.

(** [Math.min(...vs)] and [Math.max(...vs)] *)
Definition Math_min (vs : list value) : value :=
  Number (fold_left number_min (map ToNumber vs) Infinity).

Definition Math_max (vs : list value) : value :=
  Number (fold_left number_max (map ToNumber vs) NegInfinity).

(** A string operand that may be missing: [undefined] is [None]. *)
Definition truthy (s : option string) : bool :=
  match s with
  | Some s => negb (String.eqb s "")
  | None => false
  end.

(** The string an operand that may be missing is converted to, as a property
    name ([o[undefined]] reads the property called ["undefined"]) and in a
    template literal. *)
Definition ToPropertyKey (s : option string) : string :=
  match s with
  | Some s => s
  | None => "undefined"
  end.

(** An object with number-valued own properties, in [Object.keys] order. *)
Definition object : Type := list (string * Z).

Definition Object_keys (o : object) : list string := map fst o.

(** [o[k]] for a name [k] that is an own property of [o], and for a name
    that neither [o] nor [Object.prototype] has (see [inheritedName]). *)
Fixpoint Object_get (o : object) (k : string) : value :=
  match o with
  | [] => undefined
  | (k', w) :: o' => if String.eqb k' k then Number (Num w) else Object_get o' k
  end.

(** [a[i]] *)
Definition Array_get {A : Type} (a : list A) (i : Z) : option A :=
  if i <? 0 then None else nth_error a (Z.to_nat i).

(** [a.indexOf(x)]: the first index holding [x], or [-1]. An array of
    strings never holds [undefined]. *)
Fixpoint indexOf_from (a : list string) (x : string) (i : Z) : Z :=
  match a with
  | [] => -1
  | y :: a' => if String.eqb y x then i else indexOf_from a' x (i + 1)
  end.

Definition indexOf (a : list string) (x : option string) : Z :=
  match x with
  | Some x => indexOf_from a x 0
  | None => -1
  end.

(** [a.slice(start)] for [start >= 0] and [a.slice(0, -1)] *)
Definition slice_from {A : Type} (start : nat) (a : list A) : list A :=
  skipn start a.

Definition slice_init {A : Type} (a : list A) : list A := removelast a.

(** [a.reduce((acc, x, i) => f(acc, x, i), init)] *)
Fixpoint reduce_from {A B : Type} (f : B -> A -> nat -> B)
  (a : list A) (i : nat) (acc : B) : B :=
  match a with
  | [] => acc
  | x :: a' => reduce_from f a' (S i) (f acc x i)
  end.

Definition reduce {A B : Type} (f : B -> A -> nat -> B) (a : list A)
  (init : B) : B :=
  reduce_from f a 0%nat init.

(** [a.sort(cmp)]. ECMAScript leaves the algorithm to the engine; the model
    inserts the elements one after the other, each before the first element
    it compares below ([cmp x y < 0]). Where the widths are pairwise distinct
    the choice does not show: there is one strictly ascending arrangement
    ([strictly_sorted_unique] below). *)
Fixpoint sort_insert {A : Type} (cmp : A -> A -> Z) (x : A) (a : list A)
  : list A :=
  match a with
  | [] => [x]
  | y :: a' => if cmp x y <? 0 then x :: y :: a' else y :: sort_insert cmp x a'
  end.

Definition Array_sort {A : Type} (cmp : A -> A -> Z) (a : list A) : list A :=
  fold_left (fun acc x => sort_insert cmp x acc) a [].

(** A [Map<string, string>]: the entries in insertion order; [set] on a key
    that is there replaces its value in place. *)
Definition Map : Type := list (string * string).

Fixpoint Map_set (m : Map) (k v : string) : Map :=
  match m with
  | [] => [(k, v)]
  | (k', v') :: m' =>
      if String.eqb k' k then (k', v) :: m' else (k', v') :: Map_set m' k v
  end.

Definition Map_keys (m : Map) : list string := map fst m.

Fixpoint Map_get (m : Map) (k : string) : option string :=
  match m with
  | [] => None
  | (k', v) :: m' => if String.eqb k' k then Some v else Map_get m' k
  end.

End JS.

Import JS.

(** ** Directives *)

(** [keyof MediaBreakpointProps], the strings of [Breakpoints.validKeys()]. *)
Inductive MediaBreakpointKey : Type :=
| K_at
| K_lessThan
| K_greaterThan
| K_greaterThanOrEqual
| K_between.

Definition key_name (key : MediaBreakpointKey) : string :=
  match key with
  | K_at => "at"
  | K_lessThan => "lessThan"
  | K_greaterThan => "greaterThan"
  | K_greaterThanOrEqual => "greaterThanOrEqual"
  | K_between => "between"
  end.

Definition validKeys : list string :=
  [key_name K_at; key_name K_lessThan; key_name K_greaterThan;
   key_name K_greaterThanOrEqual; key_name K_between].

Definition Tuple : Type := (string * string)%type.

(** [MediaBreakpointProps]: every kind is optional, [None] is a property the
    value does not have (reading it gives [undefined]). A value that has a
    kind with the value [undefined] is not represented: the methods read it
    as they read the value without that kind, but [Object.keys] and with it
    [propKey] see the key. [at] is a keyword here, the field is [at_]. *)
Record MediaBreakpointProps : Type := mkProps {
  at_ : option string;
  lessThan : option string;
  greaterThan : option string;
  greaterThanOrEqual : option string;
  between : option Tuple
}.

(** The empty directive value [{}]. *)
Definition noProps : MediaBreakpointProps := mkProps None None None None None.

(** The operand a kind takes: a pair for [between], a name otherwise. *)
Definition operand (key : MediaBreakpointKey) : Type :=
  match key with
  | K_between => Tuple
  | _ => string
  end.

(** [{ [key]: breakpoint }] *)
Definition singleProp (key : MediaBreakpointKey) : operand key -> MediaBreakpointProps :=
  match key with
  | K_at => fun b : string => mkProps (Some b) None None None None
  | K_lessThan => fun b : string => mkProps None (Some b) None None None
  | K_greaterThan => fun b : string => mkProps None None (Some b) None None
  | K_greaterThanOrEqual => fun b : string => mkProps None None None (Some b) None
  | K_between => fun b : Tuple => mkProps None None None None (Some b)
  end.

(** The operand as the [string | Tuple] that [breakpointKey] takes. *)
Definition as_union (key : MediaBreakpointKey) : operand key -> string + Tuple :=
  match key with
  | K_between => fun b : Tuple => inr b
  | _ => fun b : string => inl b
  end.

Definition breakpointKey (breakpoint : string + Tuple) : string :=
  match breakpoint with
  | inr (b1, b2) => b1 +++ "-" +++ b2
  | inl b => b
  end.

(** ** Completions *)

Inductive Exception : Type :=
| Error (message : string)
    (** [new Error(message)] *)
| UnexpectedBreakpointProps (props : MediaBreakpointProps)
    (** [new Error(`Unexpected breakpoint props: ${JSON.stringify(props)}`)];
        the value is kept in place of its JSON text *)
| TypeError.
    (** a property read on [undefined] *)

Inductive Completion (A : Type) : Type :=
| Return (a : A)
| Throw (e : Exception).

Arguments Return {A} a.
Arguments Throw {A} e.

Definition bind {A B : Type} (c : Completion A) (k : A -> Completion B)
  : Completion B :=
  match c with
  | Return a => k a
  | Throw e => Throw e
  end.

Notation "x <- c ;; k" := (bind c (fun x => k))
  (at level 61, c at next level, right associativity).

(** ** The class *)

(** The five maps of [_mediaQueries]. *)
Record MediaQueries : Type := mkQueries {
  q_at : Map;
  q_lessThan : Map;
  q_greaterThan : Map;
  q_greaterThanOrEqual : Map;
  q_between : Map
}.

(** [Object.entries(mediaQueries)]: the kinds in the order the constructor
    writes them. *)
Definition Object_entries (q : MediaQueries) : list (MediaBreakpointKey * Map) :=
  [(K_at, q_at q); (K_lessThan, q_lessThan q); (K_greaterThan, q_greaterThan q);
   (K_greaterThanOrEqual, q_greaterThanOrEqual q); (K_between, q_between q)].

(** The fields of an instance. [_mediaQueries] is [None] while the
    constructor runs, before it is assigned. *)
Record Breakpoints : Type := mkBreakpoints {
  _sortedBreakpoints : list string;
  _breakpoints : object;
  _mediaQueries : option MediaQueries
}.

Section Class.

(** [propKey] of [./Utils]: the kind a directive value is dispatched on;
    [None] is any result that is none of the five kinds. *)
Variable propKey : MediaBreakpointProps -> option MediaBreakpointKey.

(** [createClassName] and [createRuleSet] of [./Utils]. *)
Variable RuleSet : Type.
Variable createClassName : string -> string -> string.
Variable createRuleSet : string -> string -> RuleSet.

Definition _findNextBreakpoint (this : Breakpoints) (breakpoint : option string)
  : Completion string :=
  let nextBreakpoint :=
    Array_get (_sortedBreakpoints this)
      (indexOf (_sortedBreakpoints this) breakpoint + 1) in
  match nextBreakpoint with
  | Some next =>
      if truthy nextBreakpoint then Return next
      else Throw (Error ("There is no breakpoint larger than "
                         +++ ToPropertyKey breakpoint))
  | None =>
      Throw (Error ("There is no breakpoint larger than "
                    +++ ToPropertyKey breakpoint))
  end.

Definition _normalizeProps (this : Breakpoints)
  (breakpointProps : MediaBreakpointProps) : MediaBreakpointProps :=
  match at_ breakpointProps with
  | Some at' =>
      if truthy (at_ breakpointProps) then
        let fromIndex := indexOf (_sortedBreakpoints this) (Some at') in
        let to := Array_get (_sortedBreakpoints this) (fromIndex + 1) in
        match to with
        | Some to' =>
            if truthy to then singleProp K_between (at', to')
            else singleProp K_greaterThanOrEqual at'
        | None => singleProp K_greaterThanOrEqual at'
        end
      else breakpointProps
  | None => breakpointProps
  end.

Definition _createBreakpointQuery (this : Breakpoints)
  (breakpointProps : MediaBreakpointProps) : Completion string :=
  let breakpointProps := _normalizeProps this breakpointProps in
  match propKey breakpointProps with
  | Some K_lessThan =>
      let width :=
        Object_get (_breakpoints this)
          (ToPropertyKey (lessThan breakpointProps)) in
      Return ("(max-width:" +++ ToString (sub width 1) +++ "px)")
  | Some K_greaterThan =>
      next <- _findNextBreakpoint this (greaterThan breakpointProps) ;;
      let width := Object_get (_breakpoints this) next in
      Return ("(min-width:" +++ ToString width +++ "px)")
  | Some K_greaterThanOrEqual =>
      let width :=
        Object_get (_breakpoints this)
          (ToPropertyKey (greaterThanOrEqual breakpointProps)) in
      Return ("(min-width:" +++ ToString width +++ "px)")
  | Some K_between =>
      match between breakpointProps with
      | Some (b0, b1) =>
          let fromWidth := Object_get (_breakpoints this) b0 in
          let toWidth := Object_get (_breakpoints this) b1 in
          Return ("(min-width:" +++ ToString fromWidth
                  +++ "px) and (max-width:" +++ ToString (sub toWidth 1)
                  +++ "px)")
      | None => Throw TypeError
      end
  | _ => Throw (UnexpectedBreakpointProps breakpointProps)
  end.

(** The result is [None] where the [switch] has no case and the function
    ends without a [return]. *)
Definition shouldRenderMediaQuery (this : Breakpoints)
  (breakpointProps : MediaBreakpointProps) (onlyRenderAt : list string)
  : Completion (option bool) :=
  let breakpointProps := _normalizeProps this breakpointProps in
  match propKey breakpointProps with
  | Some K_lessThan =>
      let width :=
        Object_get (_breakpoints this)
          (ToPropertyKey (lessThan breakpointProps)) in
      let lowestAllowedWidth :=
        Math_min (map (fun breakpoint => Object_get (_breakpoints this) breakpoint)
                    onlyRenderAt) in
      Return (Some (lt lowestAllowedWidth width))
  | Some K_greaterThan =>
      next <- _findNextBreakpoint this (greaterThan breakpointProps) ;;
      let width := Object_get (_breakpoints this) next in
      let highestAllowedWidth :=
        Math_max (map (fun breakpoint => Object_get (_breakpoints this) breakpoint)
                    onlyRenderAt) in
      Return (Some (ge highestAllowedWidth width))
  | Some K_greaterThanOrEqual =>
      let width :=
        Object_get (_breakpoints this)
          (ToPropertyKey (greaterThanOrEqual breakpointProps)) in
      let highestAllowedWidth :=
        Math_max (map (fun breakpoint => Object_get (_breakpoints this) breakpoint)
                    onlyRenderAt) in
      Return (Some (ge highestAllowedWidth width))
  | Some K_between =>
      match between breakpointProps with
      | Some (b0, b1) =>
          let fromWidth := Object_get (_breakpoints this) b0 in
          let toWidth := Object_get (_breakpoints this) b1 in
          let allowedWidths :=
            map (fun breakpoint => Object_get (_breakpoints this) breakpoint)
              onlyRenderAt in
          Return (Some (negb (lt (Math_max allowedWidths) fromWidth
                              || ge (Math_min allowedWidths) toWidth)))
      | None => Throw TypeError
      end
  | _ => Return None
  end.

Definition _createBreakpointQueries (this : Breakpoints)
  (key : MediaBreakpointKey) (forBreakpoints : list (operand key))
  : Completion Map :=
  fold_left
    (fun acc breakpoint =>
       map <- acc ;;
       query <- _createBreakpointQuery this (singleProp key breakpoint) ;;
       Return (Map_set map (breakpointKey (as_union key breakpoint)) query))
    forBreakpoints (Return []).

(** Lines 37-40: the names, ordered by their widths. *)
Definition sortBreakpoints (breakpoints : object) : list string :=
  map fst
    (Array_sort (fun a b => if lt (snd a) (snd b) then -1 else 1)
       (map (fun breakpoint => (breakpoint, Object_get breakpoints breakpoint))
          (Object_keys breakpoints))).

(** Lines 43-51: the list of all [between] combinations. *)
Definition betweenCombinations (sortedBreakpoints : list string) : list Tuple :=
  reduce
    (fun acc b1 i =>
       acc ++ map (fun b2 => (b1, b2)) (slice_from (i + 1) sortedBreakpoints))
    (slice_init sortedBreakpoints) [].

Definition constructor (breakpoints : object) : Completion Breakpoints :=
  let sorted := sortBreakpoints breakpoints in
  let this := mkBreakpoints sorted breakpoints None in
  at' <- _createBreakpointQueries this K_at sorted ;;
  lessThan' <- _createBreakpointQueries this K_lessThan (slice_from 1 sorted) ;;
  greaterThan' <- _createBreakpointQueries this K_greaterThan (slice_init sorted) ;;
  greaterThanOrEqual' <- _createBreakpointQueries this K_greaterThanOrEqual sorted ;;
  between' <- _createBreakpointQueries this K_between (betweenCombinations sorted) ;;
  Return (mkBreakpoints sorted breakpoints
            (Some (mkQueries at' lessThan' greaterThan' greaterThanOrEqual' between'))).

Definition getMediaQueryTypes (this : Breakpoints) : list string :=
  _sortedBreakpoints this.

Definition getLargestBreakpoint (this : Breakpoints) : option string :=
  Array_get (_sortedBreakpoints this)
    (Z.of_nat (List.length (_sortedBreakpoints this)) - 1).

Definition toRuleSets (this : Breakpoints) : Completion (list RuleSet) :=
  match _mediaQueries this with
  | Some mediaQueries =>
      Return
        (fold_left
           (fun acc '(type, queries) =>
              fold_left
                (fun acc '(breakpoint, query) =>
                   acc ++ [createRuleSet
                             (createClassName (key_name type) breakpoint)
                             ("not all and " +++ query)])
                queries acc)
           (Object_entries mediaQueries) [])
  | None => Throw TypeError
  end.

End Class.

(** Modelled from the spec: [propKey] of [./Utils] is not under src/.
    Section 3 of the specification has exactly one kind present on a
    directive value, and this function names it; on a value with several
    kinds it names the first in the order of [validKeys], on a value with
    none it gives [None]. The theorems hold for every [propKey] that names
    the kind of a one-kind value; this one serves the closed examples. *)
Definition propKey_first (p : MediaBreakpointProps) : option MediaBreakpointKey :=
  match at_ p, lessThan p, greaterThan p, greaterThanOrEqual p, between p with
  | Some _, _, _, _, _ => Some K_at
  | _, Some _, _, _, _ => Some K_lessThan
  | _, _, Some _, _, _ => Some K_greaterThan
  | _, _, _, Some _, _ => Some K_greaterThanOrEqual
  | _, _, _, _, Some _ => Some K_between
  | _, _, _, _, _ => None
  end.

(** [propKey] names the kind of a directive value that has one kind. *)
Definition propKey_single (propKey : MediaBreakpointProps -> option MediaBreakpointKey)
  : Prop :=
  forall (key : MediaBreakpointKey) (breakpoint : operand key),
    propKey (singleProp key breakpoint) = Some key.

(** [propKey] names no kind on the empty directive value [{}]. *)
Definition propKey_none (propKey : MediaBreakpointProps -> option MediaBreakpointKey)
  : Prop :=
  propKey noProps = None.

(** ** Vocabulary of the statements *)

(** [Number.isSafeInteger]: the integers on which the arithmetic of doubles
    is the arithmetic of integers. For a safe [w] the difference [w - 1] is
    exact and both print as decimal text. *)
Definition safeInteger (z : Z) : Prop := - (2 ^ 53 - 1) <= z <= 2 ^ 53 - 1.

(** Every width of the breakpoint object is a safe integer. *)
Definition safeWidths (o : object) : Prop :=
  forall k w, In (k, w) o -> safeInteger w.


(** The breakpoint set of the examples. *)
Definition smMdLg : object :=
  [("sm"%string, 0); ("md"%string, 768); ("lg"%string, 1024)].

(** All pairs of a sequence whose first component comes before the second. *)
Fixpoint orderedPairs (l : list string) : list Tuple :=
  match l with
  | [] => []
  | b1 :: l' => map (fun b2 => (b1, b2)) l' ++ orderedPairs l'
  end.

(** The smallest and the largest of a non-empty list of integers. *)
Definition minimum (w : Z) (ws : list Z) : Z := fold_left Z.min ws w.
Definition maximum (w : Z) (ws : list Z) : Z := fold_left Z.max ws w.

(** The widths of a list of names that are all in the breakpoint set. *)
Definition widthsOf (breakpoints : object) (names : list string) (ws : list Z)
  : Prop :=
  map (Object_get breakpoints) names = map (fun w => Number (Num w)) ws.

(** No hyphen in a name. *)
Fixpoint hyphenFree (s : string) : bool :=
  match s with
  | EmptyString => true
  | String c s' => negb (Ascii.eqb c "-"%char) && hyphenFree s'
  end.

(** The compiled text of a directive, [""] where compilation throws. *)
Definition queryText (propKey : MediaBreakpointProps -> option MediaBreakpointKey)
  (this : Breakpoints) (props : MediaBreakpointProps) : string :=
  match _createBreakpointQuery propKey this props with
  | Return query => query
  | Throw _ => ""%string
  end.

(** The map that [_createBreakpointQueries] builds when no compilation
    throws. *)
Definition queriesOf (propKey : MediaBreakpointProps -> option MediaBreakpointKey)
  (this : Breakpoints) (key : MediaBreakpointKey)
  (forBreakpoints : list (operand key)) (init : Map) : Map :=
  fold_left
    (fun map breakpoint =>
       Map_set map (breakpointKey (as_union key breakpoint))
         (queryText propKey this (singleProp key breakpoint)))
    forBreakpoints init.


(** The properties of the breakpoint object ordered as [sortBreakpoints]
    orders its names: the same insertion sort on the integer widths. *)
Definition byWidth (a b : string * Z) : Z := if snd a <? snd b then -1 else 1.

Definition sortByWidth (breakpoints : object) : object :=
  Array_sort byWidth breakpoints.

Definition le_width (a b : string * Z) : Prop := snd a <= snd b.
Definition lt_width (a b : string * Z) : Prop := snd a < snd b.

(** A property as the pair [[name, width]] that line 38 builds. *)
Definition entryOf (p : string * Z) : string * value :=
  (fst p, Number (Num (snd p))).

(** The registry of the example set, under [propKey_first]. *)
Definition smMdLgRegistry : Breakpoints :=
  Eval vm_compute in
    match constructor propKey_first smMdLg with
    | Return this => this
    | Throw _ => mkBreakpoints [] [] None
    end.

(** A breakpoint set given out of order. *)
Definition lgSmMd : object :=
  [("lg"%string, 1024); ("sm"%string, 0); ("md"%string, 768)].



(** The rule sets a registry exports, one for every entry of every map. *)
Definition ruleSetsOf {RuleSet : Type}
  (createClassName : string -> string -> string)
  (createRuleSet : string -> string -> RuleSet) (q : MediaQueries)
  : list RuleSet :=
  flat_map
    (fun '(type, queries) =>
       map (fun '(breakpoint, query) =>
              createRuleSet (createClassName (key_name type) breakpoint)
                ("not all and " +++ query))
         queries)
    (Object_entries q).

(** The number of compiled queries a registry holds. *)
Definition queryCount (q : MediaQueries) : nat :=
  (List.length (q_at q) + List.length (q_lessThan q)
   + List.length (q_greaterThan q) + List.length (q_greaterThanOrEqual q)
   + List.length (q_between q))%nat.

(** ** The accessor for the [at] queries *)

(** The object [getDynamicResponsiveMediaQueries] builds: its own properties
    with their string values, in the order they are created. (An object
    enumerates names that are array indices first; which properties it owns,
    and with what values, does not depend on that.) *)
Definition StringRecord : Type := list (string * string).

(** [{ ...acc, [k]: v }] *)
Definition spread_with (acc : StringRecord) (k v : string) : StringRecord :=
  Map_set acc k v.

(** The own property [k] of the record: its value, which is what
    [record[k]] reads then, or [None] where the record has no own property
    [k] ([Object.prototype.hasOwnProperty.call(record, k)] is false; the
    record is a plain object, and [record[k]] may still read a name of
    [Object.prototype]). *)
Definition Record_own (record : StringRecord) (k : string) : option string :=
  Map_get record k.

Definition getDynamicResponsiveMediaQueries (this : Breakpoints)
  : Completion StringRecord :=
  match _mediaQueries this with
  | Some mediaQueries =>
      Return (fold_left (fun acc '(k, v) => spread_with acc k v)
                (q_at mediaQueries) [])
  | None => Throw TypeError
  end.

(** ** Arrays, objects and maps *)

Section Arrays.

Lemma Array_get_nth {A : Type} (a : list A) (n : nat) :
  Array_get a (Z.of_nat n) = nth_error a n.
Proof.
  unfold Array_get.
  destruct (Z.ltb_spec (Z.of_nat n) 0); [lia|].
  now rewrite Nat2Z.id.
Qed.


Lemma indexOf_from_middle (pre post : list string) (x : string) (i : Z) :
  ~ In x pre ->
  indexOf_from (pre ++ x :: post) x i = i + Z.of_nat (List.length pre).
Proof.
  revert i; induction pre as [|y pre IH]; intros i Hin;
    cbn [app indexOf_from List.length].
  - rewrite String.eqb_refl. lia.
  - destruct (String.eqb_spec y x) as [->|Hne].
    + exfalso; apply Hin; now left.
    + rewrite IH by (intros H; apply Hin; now right). lia.
Qed.

(** In an array without repetition the element after [x] is read at
    [indexOf(x) + 1]. *)
Lemma next_in_NoDup (pre post : list string) (x : string) :
  NoDup (pre ++ x :: post) ->
  Array_get (pre ++ x :: post) (indexOf (pre ++ x :: post) (Some x) + 1)
  = hd_error post.
Proof.
  intros Hnd. unfold indexOf.
  rewrite indexOf_from_middle.
  - replace (0 + Z.of_nat (List.length pre) + 1)
      with (Z.of_nat (S (List.length pre))) by lia.
    rewrite Array_get_nth.
    replace (pre ++ x :: post) with ((pre ++ [x]) ++ post)
      by (now rewrite <- app_assoc).
    rewrite nth_error_app2 by (rewrite length_app; cbn; lia).
    rewrite length_app; cbn [List.length].
    replace (S (List.length pre) - (List.length pre + 1))%nat with 0%nat by lia.
    now destruct post.
  - apply NoDup_remove_2 in Hnd. intros H; apply Hnd, in_or_app; now left.
Qed.


Lemma In_split_first (a : list string) (x : string) :
  In x a -> exists pre post, a = pre ++ x :: post /\ ~ In x pre.
Proof.
  induction a as [|y a IH]; [easy|]. intros Hin.
  destruct (string_dec y x) as [->|Hne].
  - now exists [], a.
  - destruct Hin as [->|Hin]; [easy|].
    destruct (IH Hin) as (pre & post & -> & Hpre).
    exists (y :: pre), post. split; [reflexivity|].
    intros [H|H]; [now apply Hne | now apply Hpre].
Qed.

Lemma Object_get_In (o : object) (k : string) (w : Z) :
  NoDup (Object_keys o) -> In (k, w) o -> Object_get o k = Number (Num w).
Proof.
  induction o as [|[k' w'] o IH]; [easy|].
  cbn [Object_keys map fst Object_get]. intros Hnd Hin.
  inversion Hnd as [|? ? Hnotin Hnd']; subst.
  destruct Hin as [Heq|Hin].
  - injection Heq as -> ->. now rewrite String.eqb_refl.
  - destruct (String.eqb_spec k' k) as [->|Hne].
    + exfalso; apply Hnotin. now apply (in_map fst) in Hin.
    + now apply IH.
Qed.

Lemma Object_get_absent (o : object) (k : string) :
  ~ In k (Object_keys o) -> Object_get o k = undefined.
Proof.
  induction o as [|[k' w'] o IH]; [easy|].
  cbn [Object_keys map fst Object_get]. intros Hin.
  destruct (String.eqb_spec k' k) as [->|Hne].
  - exfalso; apply Hin; now left.
  - apply IH. intros H; apply Hin; now right.
Qed.

Lemma Object_get_present (o : object) (k : string) :
  In k (Object_keys o) -> exists w, Object_get o k = Number (Num w).
Proof.
  induction o as [|[k' w'] o IH]; [easy|].
  cbn [Object_keys map fst Object_get]. intros Hin.
  destruct (String.eqb_spec k' k) as [->|Hne]; [now exists w'|].
  destruct Hin as [->|Hin]; [easy|]. now apply IH.
Qed.

End Arrays.
(** ** The sorted breakpoint sequence *)

Section Sorting.

Context {A : Type} (cmp : A -> A -> Z).

Lemma sort_insert_perm (x : A) (a : list A) :
  Permutation (sort_insert cmp x a) (x :: a).
Proof.
  induction a as [|y a IH]; cbn [sort_insert]; [reflexivity|].
  destruct (cmp x y <? 0); [reflexivity|].
  rewrite IH. apply perm_swap.
Qed.

Lemma sort_fold_perm (a acc : list A) :
  Permutation (fold_left (fun acc x => sort_insert cmp x acc) a acc) (acc ++ a).
Proof.
  revert acc; induction a as [|x a IH]; intros acc; cbn [fold_left].
  - now rewrite app_nil_r.
  - rewrite IH, sort_insert_perm. apply Permutation_middle.
Qed.

Lemma Array_sort_perm (a : list A) : Permutation (Array_sort cmp a) a.
Proof. apply (sort_fold_perm a []). Qed.

End Sorting.

Section SortByWidth.

Lemma sort_insert_sorted (x : string * Z) (a : object) :
  StronglySorted le_width a -> StronglySorted le_width (sort_insert byWidth x a).
Proof.
  induction 1 as [|y a Hs IH Hall]; cbn [sort_insert].
  - repeat constructor.
  - unfold byWidth at 1. destruct (Z.ltb_spec (snd x) (snd y)) as [Hlt|Hge]; cbn.
    + constructor; [now constructor|].
      constructor; [unfold le_width; lia|].
      eapply Forall_impl; [|exact Hall]. unfold le_width; intros; lia.
    + constructor; [exact IH|].
      eapply Permutation_Forall;
        [apply Permutation_sym, sort_insert_perm|].
      constructor; [unfold le_width; lia | exact Hall].
Qed.

Lemma sortByWidth_sorted (o : object) : StronglySorted le_width (sortByWidth o).
Proof.
  unfold sortByWidth, Array_sort.
  assert (H : StronglySorted le_width []) by constructor.
  revert H. generalize (@nil (string * Z)) as acc.
  induction o as [|x o IH]; intros acc H; cbn [fold_left]; [exact H|].
  apply IH. now apply sort_insert_sorted.
Qed.

Lemma sortByWidth_perm (o : object) : Permutation (sortByWidth o) o.
Proof. apply Array_sort_perm. Qed.

Lemma sorted_distinct_strict (o : object) :
  NoDup (map snd o) -> StronglySorted le_width o -> StronglySorted lt_width o.
Proof.
  induction 2 as [|x o Hs IH Hall]; [constructor|].
  cbn [map] in H. inversion H as [|? ? Hnotin Hnd]; subst.
  constructor; [now apply IH|].
  rewrite Forall_forall in *. intros y Hy.
  specialize (Hall y Hy). unfold le_width in Hall. unfold lt_width.
  assert (snd x <> snd y) by (intros E; apply Hnotin; rewrite E; now apply in_map).
  lia.
Qed.

Lemma sortByWidth_strict (o : object) :
  NoDup (map snd o) -> StronglySorted lt_width (sortByWidth o).
Proof.
  intros H. apply sorted_distinct_strict; [|apply sortByWidth_sorted].
  eapply Permutation_NoDup; [|exact H].
  apply Permutation_map, Permutation_sym, sortByWidth_perm.
Qed.

(** Two strictly ascending arrangements of the same properties are equal. *)
Lemma strictly_sorted_unique (l1 l2 : object) :
  Permutation l1 l2 ->
  StronglySorted lt_width l1 -> StronglySorted lt_width l2 -> l1 = l2.
Proof.
  revert l2; induction l1 as [|x l1 IH]; intros l2 Hperm H1 H2.
  - now apply Permutation_nil in Hperm.
  - destruct l2 as [|y l2];
      [now apply Permutation_sym, Permutation_nil in Hperm|].
    inversion H1 as [|? ? H1' Hx]; inversion H2 as [|? ? H2' Hy]; subst.
    rewrite Forall_forall in Hx, Hy.
    assert (Heq : x = y).
    { assert (Hxin : In x (y :: l2))
        by (eapply Permutation_in; [exact Hperm|now left]).
      assert (Hyin : In y (x :: l1))
        by (eapply Permutation_in; [apply Permutation_sym; exact Hperm|now left]).
      destruct Hxin as [->|Hxin]; [reflexivity|].
      destruct Hyin as [->|Hyin]; [reflexivity|].
      specialize (Hx y Hyin). specialize (Hy x Hxin).
      unfold lt_width in *. lia. }
    subst y. f_equal. apply IH; [|assumption|assumption].
    now apply Permutation_cons_inv in Hperm.
Qed.

(** The comparator of line 39 on [[name, width]] pairs is [byWidth]. *)
Lemma sort_insert_entries (x : string * Z) (a : object) :
  sort_insert (fun a b => if lt (snd a) (snd b) then -1 else 1)
    (entryOf x) (map entryOf a)
  = map entryOf (sort_insert byWidth x a).
Proof.
  induction a as [|y a IH]; cbn [map sort_insert]; [reflexivity|].
  rewrite IH. unfold byWidth at 2. cbn [entryOf snd lt ToNumber number_lt].
  now destruct (snd x <? snd y).
Qed.

Lemma Array_sort_entries (o : object) :
  Array_sort (fun a b => if lt (snd a) (snd b) then -1 else 1) (map entryOf o)
  = map entryOf (sortByWidth o).
Proof.
  unfold sortByWidth, Array_sort.
  change (@nil (string * value)) with (map entryOf []).
  generalize (@nil (string * Z)) as acc.
  induction o as [|x o IH]; intros acc; cbn [map fold_left]; [reflexivity|].
  now rewrite sort_insert_entries, IH.
Qed.

Lemma entries_of_keys (o l : object) :
  (forall k w, In (k, w) l -> Object_get o k = Number (Num w)) ->
  map (fun breakpoint => (breakpoint, Object_get o breakpoint)) (Object_keys l)
  = map entryOf l.
Proof.
  induction l as [|[k w] l IH]; intros H; cbn [Object_keys map fst]; [reflexivity|].
  rewrite (H k w) by now left.
  unfold Object_keys in IH. rewrite IH; [reflexivity|].
  intros; apply H; now right.
Qed.

Lemma sortBreakpoints_keys (o : object) :
  NoDup (Object_keys o) -> sortBreakpoints o = Object_keys (sortByWidth o).
Proof.
  intros Hnd. unfold sortBreakpoints.
  rewrite (entries_of_keys o o) by (intros; now apply Object_get_In).
  rewrite Array_sort_entries. unfold Object_keys.
  rewrite map_map. reflexivity.
Qed.

Lemma sortBreakpoints_perm (o : object) :
  NoDup (Object_keys o) -> Permutation (sortBreakpoints o) (Object_keys o).
Proof.
  intros Hnd. rewrite sortBreakpoints_keys by assumption.
  apply Permutation_map, sortByWidth_perm.
Qed.

Lemma sortBreakpoints_NoDup (o : object) :
  NoDup (Object_keys o) -> NoDup (sortBreakpoints o).
Proof.
  intros Hnd. eapply Permutation_NoDup; [|exact Hnd].
  now apply Permutation_sym, sortBreakpoints_perm.
Qed.

Lemma sortBreakpoints_In (o : object) (b : string) :
  NoDup (Object_keys o) -> In b (sortBreakpoints o) <-> In b (Object_keys o).
Proof.
  intros Hnd; split; apply Permutation_in;
    [|apply Permutation_sym]; now apply sortBreakpoints_perm.
Qed.

(** The widths read along the sorted sequence are those of [sortByWidth]. *)
Lemma sortBreakpoints_widths (o : object) :
  NoDup (Object_keys o) ->
  widthsOf o (sortBreakpoints o) (map snd (sortByWidth o)).
Proof.
  intros Hnd. unfold widthsOf. rewrite sortBreakpoints_keys by assumption.
  unfold Object_keys. rewrite !map_map.
  apply map_ext_in. intros [k w] Hin. cbn [fst snd].
  apply Object_get_In; [assumption|].
  eapply Permutation_in; [apply sortByWidth_perm | exact Hin].
Qed.

End SortByWidth.
(** ** Normalization and compilation of one directive *)

Section Directive.

Variable propKey : MediaBreakpointProps -> option MediaBreakpointKey.
Hypothesis propKey_one : propKey_single propKey.

Variable this : Breakpoints.

Local Abbreviation compile := (_createBreakpointQuery propKey this).
Local Abbreviation admit_ := (shouldRenderMediaQuery propKey this).
Local Abbreviation width b := (Object_get (_breakpoints this) b).

Lemma truthy_Some (s : string) : truthy (Some s) = true <-> s <> ""%string.
Proof.
  cbn. destruct (String.eqb_spec s ""); cbn; split; intros; congruence.
Qed.

Lemma normalize_without_at (props : MediaBreakpointProps) :
  truthy (at_ props) = false -> _normalizeProps this props = props.
Proof.
  unfold _normalizeProps. intros H. destruct (at_ props); [|reflexivity].
  rewrite H. reflexivity.
Qed.

(** What [at(b)] is rewritten to. *)
Lemma normalize_at (b : string) :
  b <> ""%string ->
  _normalizeProps this (singleProp K_at b)
  = match Array_get (_sortedBreakpoints this)
            (indexOf (_sortedBreakpoints this) (Some b) + 1) with
    | Some to =>
        if truthy (Some to) then singleProp K_between (b, to)
        else singleProp K_greaterThanOrEqual b
    | None => singleProp K_greaterThanOrEqual b
    end.
Proof.
  intros Hb. apply truthy_Some in Hb.
  unfold _normalizeProps. cbn [singleProp at_]. rewrite Hb.
  now destruct (Array_get _ _).
Qed.

Lemma normalize_drops_at (props : MediaBreakpointProps) :
  truthy (at_ props) = true -> at_ (_normalizeProps this props) = None.
Proof.
  unfold _normalizeProps. intros Ht.
  destruct (at_ props) as [b|]; [|discriminate]. rewrite Ht.
  destruct (Array_get _ _) as [to|]; [destruct (truthy (Some to))|];
    reflexivity.
Qed.

Lemma normalize_idempotent (props : MediaBreakpointProps) :
  _normalizeProps this (_normalizeProps this props) = _normalizeProps this props.
Proof.
  destruct (truthy (at_ props)) eqn:Ht.
  - apply normalize_without_at. now rewrite normalize_drops_at.
  - now rewrite !(normalize_without_at props Ht).
Qed.

Lemma compile_normalized (props : MediaBreakpointProps) :
  compile (_normalizeProps this props) = compile props.
Proof. unfold _createBreakpointQuery. now rewrite normalize_idempotent. Qed.

Lemma admit_normalized (props : MediaBreakpointProps) (onlyRenderAt : list string) :
  admit_ (_normalizeProps this props) onlyRenderAt = admit_ props onlyRenderAt.
Proof. unfold shouldRenderMediaQuery. now rewrite normalize_idempotent. Qed.

Lemma compile_lessThan (b : string) :
  compile (singleProp K_lessThan b)
  = Return ("(max-width:" +++ ToString (sub (width b) 1) +++ "px)").
Proof.
  unfold _createBreakpointQuery.
  rewrite normalize_without_at by reflexivity.
  now rewrite propKey_one.
Qed.

Lemma compile_greaterThanOrEqual (b : string) :
  compile (singleProp K_greaterThanOrEqual b)
  = Return ("(min-width:" +++ ToString (width b) +++ "px)").
Proof.
  unfold _createBreakpointQuery.
  rewrite normalize_without_at by reflexivity.
  now rewrite propKey_one.
Qed.

Lemma compile_between (b1 b2 : string) :
  compile (singleProp K_between (b1, b2))
  = Return ("(min-width:" +++ ToString (width b1)
            +++ "px) and (max-width:" +++ ToString (sub (width b2) 1)
            +++ "px)").
Proof.
  unfold _createBreakpointQuery.
  rewrite normalize_without_at by reflexivity.
  now rewrite propKey_one.
Qed.

Lemma compile_greaterThan (b : string) :
  compile (singleProp K_greaterThan b)
  = (next <- _findNextBreakpoint this (Some b) ;;
     Return ("(min-width:" +++ ToString (width next) +++ "px)")).
Proof.
  unfold _createBreakpointQuery.
  rewrite normalize_without_at by reflexivity.
  now rewrite propKey_one.
Qed.

(** [at("")] is not rewritten, and no case of the [switch] takes it. *)
Lemma compile_at_empty :
  compile (singleProp K_at ""%string)
  = Throw (UnexpectedBreakpointProps (singleProp K_at ""%string)).
Proof.
  unfold _createBreakpointQuery.
  rewrite normalize_without_at by reflexivity.
  now rewrite propKey_one.
Qed.

Lemma admit_lessThan (b : string) (onlyRenderAt : list string) :
  admit_ (singleProp K_lessThan b) onlyRenderAt
  = Return (Some (lt (Math_min (map (fun a => width a) onlyRenderAt)) (width b))).
Proof.
  unfold shouldRenderMediaQuery.
  rewrite normalize_without_at by reflexivity.
  now rewrite propKey_one.
Qed.

Lemma admit_greaterThanOrEqual (b : string) (onlyRenderAt : list string) :
  admit_ (singleProp K_greaterThanOrEqual b) onlyRenderAt
  = Return (Some (ge (Math_max (map (fun a => width a) onlyRenderAt)) (width b))).
Proof.
  unfold shouldRenderMediaQuery.
  rewrite normalize_without_at by reflexivity.
  now rewrite propKey_one.
Qed.

Lemma admit_greaterThan (b : string) (onlyRenderAt : list string) :
  admit_ (singleProp K_greaterThan b) onlyRenderAt
  = (next <- _findNextBreakpoint this (Some b) ;;
     Return (Some (ge (Math_max (map (fun a => width a) onlyRenderAt))
                     (width next)))).
Proof.
  unfold shouldRenderMediaQuery.
  rewrite normalize_without_at by reflexivity.
  now rewrite propKey_one.
Qed.

Lemma admit_between (b1 b2 : string) (onlyRenderAt : list string) :
  admit_ (singleProp K_between (b1, b2)) onlyRenderAt
  = Return (Some (negb
      (lt (Math_max (map (fun a => width a) onlyRenderAt)) (width b1)
       || ge (Math_min (map (fun a => width a) onlyRenderAt)) (width b2)))).
Proof.
  unfold shouldRenderMediaQuery.
  rewrite normalize_without_at by reflexivity.
  now rewrite propKey_one.
Qed.

(** [_findNextBreakpoint] in a sequence without repetition. *)
Lemma findNext_middle (pre post : list string) (b next : string) :
  _sortedBreakpoints this = pre ++ b :: next :: post ->
  NoDup (_sortedBreakpoints this) ->
  next <> ""%string ->
  _findNextBreakpoint this (Some b) = Return next.
Proof.
  intros Hs Hnd Hne. unfold _findNextBreakpoint.
  rewrite Hs in *. rewrite next_in_NoDup by assumption. cbn [hd_error].
  apply truthy_Some in Hne. now rewrite Hne.
Qed.

Lemma findNext_last (pre : list string) (b : string) :
  _sortedBreakpoints this = pre ++ [b] ->
  NoDup (_sortedBreakpoints this) ->
  _findNextBreakpoint this (Some b)
  = Throw (Error ("There is no breakpoint larger than " +++ b)).
Proof.
  intros Hs Hnd. unfold _findNextBreakpoint.
  rewrite Hs in *. now rewrite next_in_NoDup by assumption.
Qed.

End Directive.
(** ** Maps filled by [set] *)

Section MapSet.

Lemma Map_set_fresh (m : Map) (k v : string) :
  ~ In k (Map_keys m) -> Map_set m k v = m ++ [(k, v)].
Proof.
  induction m as [|[k' v'] m IH]; cbn [Map_set Map_keys map fst app];
    intros Hin; [reflexivity|].
  destruct (String.eqb_spec k' k) as [->|Hne].
  - exfalso; apply Hin; now left.
  - unfold Map_keys in IH. rewrite IH; [reflexivity|].
    intros H; apply Hin; now right.
Qed.



(** An entry of the map after [set] is the one set or was there before. *)
Lemma Map_set_entry (m : Map) (k v : string) (e : string * string) :
  In e (Map_set m k v) -> e = (k, v) \/ In e m.
Proof.
  induction m as [|[k0 v0] m IH]; cbn [Map_set In].
  - intuition.
  - destruct (String.eqb_spec k0 k) as [->|Hne]; cbn [In]; intuition.
Qed.

Context {B : Type} (kf vf : B -> string).

Let fill (l : list B) (m : Map) : Map :=
  fold_left (fun m b => Map_set m (kf b) (vf b)) l m.



Lemma fill_entry (l : list B) (m : Map) (e : string * string) :
  In e (fill l m) -> In e m \/ exists b, In b l /\ e = (kf b, vf b).
Proof.
  revert m; induction l as [|b l IH]; intros m; cbn [fill fold_left].
  - now left.
  - intros H. apply IH in H. destruct H as [H|(b' & Hb' & ->)].
    + apply Map_set_entry in H. destruct H as [->|H]; [|now left].
      right. exists b. split; [now left|reflexivity].
    + right. exists b'. split; [now right|reflexivity].
Qed.

(** Without two operands of one key, the map lists the operands in order. *)
Lemma fill_distinct (l : list B) (m : Map) :
  NoDup (Map_keys m ++ map kf l) ->
  fill l m = m ++ map (fun b => (kf b, vf b)) l.
Proof.
  revert m; induction l as [|b l IH]; intros m Hnd; cbn [fill fold_left map].
  - now rewrite app_nil_r.
  - fold (fill l (Map_set m (kf b) (vf b))).
    assert (Hfresh : ~ In (kf b) (Map_keys m)).
    { cbn [map] in Hnd. apply NoDup_remove_2 in Hnd.
      intros H; apply Hnd, in_or_app; now left. }
    rewrite (Map_set_fresh m _ _ Hfresh).
    rewrite IH.
    + now rewrite <- app_assoc.
    + unfold Map_keys. rewrite map_app. cbn [map fst].
      rewrite <- app_assoc. exact Hnd.
Qed.

End MapSet.

(** ** The [between] combinations *)

Section Combinations.

Lemma reduce_pairs (pre rest : list string) (acc : list Tuple) :
  reduce_from
    (fun acc b1 i =>
       acc ++ map (fun b2 => (b1, b2)) (slice_from (i + 1) (pre ++ rest)))
    (slice_init rest) (List.length pre) acc
  = acc ++ orderedPairs rest.
Proof.
  revert pre acc; induction rest as [|b rest IH]; intros pre acc.
  - cbn. now rewrite app_nil_r.
  - destruct rest as [|b' rest].
    + cbn. now rewrite app_nil_r.
    + change (slice_init (b :: b' :: rest)) with (b :: slice_init (b' :: rest)).
      cbn [reduce_from].
      replace (pre ++ b :: b' :: rest) with ((pre ++ [b]) ++ b' :: rest)
        by (now rewrite <- app_assoc).
      replace (S (List.length pre)) with (List.length (pre ++ [b]))
        by (rewrite length_app; cbn; lia).
      rewrite IH.
      unfold slice_from.
      replace (List.length pre + 1)%nat with (List.length (pre ++ [b]) + 0)%nat
        by (rewrite length_app; cbn; lia).
      rewrite skipn_app, skipn_all2 by lia.
      replace (List.length (pre ++ [b]) + 0 - List.length (pre ++ [b]))%nat
        with 0%nat by lia.
      cbn [skipn app orderedPairs]. now rewrite <- app_assoc.
Qed.

Lemma betweenCombinations_pairs (sorted : list string) :
  betweenCombinations sorted = orderedPairs sorted.
Proof. apply (reduce_pairs [] sorted []). Qed.

Lemma orderedPairs_In (l : list string) (b1 b2 : string) :
  In (b1, b2) (orderedPairs l) <->
  exists i j, (i < j)%nat /\ nth_error l i = Some b1 /\ nth_error l j = Some b2.
Proof.
  induction l as [|b l IH]; cbn [orderedPairs].
  - split; [easy|]. intros (i & j & _ & H & _). now destruct i.
  - rewrite in_app_iff, in_map_iff, IH. split.
    + intros [(x & Heq & Hin)|(i & j & Hlt & Hi & Hj)].
      * injection Heq as -> ->. apply In_nth_error in Hin as [j Hj].
        exists 0%nat, (S j). repeat split; [lia|exact Hj].
      * exists (S i), (S j). repeat split; [lia|exact Hi|exact Hj].
    + intros (i & j & Hlt & Hi & Hj).
      destruct j as [|j]; [lia|]. cbn [nth_error] in Hj.
      destruct i as [|i].
      * injection Hi as ->. left. exists b2. split; [reflexivity|].
        eapply nth_error_In; eassumption.
      * right. exists i, j. repeat split; [lia|exact Hi|exact Hj].
Qed.

Lemma orderedPairs_fst (l : list string) (p : Tuple) :
  In p (orderedPairs l) -> In (fst p) l /\ In (snd p) l.
Proof.
  destruct p as [b1 b2]. rewrite orderedPairs_In.
  intros (i & j & _ & Hi & Hj). split; eapply nth_error_In; eassumption.
Qed.

Lemma orderedPairs_NoDup (l : list string) :
  NoDup l -> NoDup (orderedPairs l).
Proof.
  induction 1 as [|b l Hnotin Hnd IH]; cbn [orderedPairs]; [constructor|].
  apply NoDup_app.
  - apply NoDup_map_NoDup_ForallPairs; [|assumption].
    intros x y _ _ Heq. now injection Heq.
  - exact IH.
  - intros p Hp Hp'. apply in_map_iff in Hp as (x & <- & _).
    apply orderedPairs_fst in Hp' as [Hp' _]. now apply Hnotin.
Qed.

(** There are [n (n - 1) / 2] combinations. *)
Lemma orderedPairs_length (l : list string) :
  (2 * List.length (orderedPairs l)
   = List.length l * (List.length l - 1))%nat.
Proof.
  induction l as [|b l IH]; [reflexivity|].
  cbn [orderedPairs]. rewrite length_app, length_map. cbn [List.length].
  unfold Tuple in *.
  revert IH. generalize (List.length (orderedPairs l)) as p.
  generalize (List.length l) as n. intros [|n] p; cbn [Nat.sub]; nia.
Qed.

(** Names without a hyphen join to keys that can be split again. *)
Lemma join_injective (a1 b1 a2 b2 : string) :
  hyphenFree a1 = true -> hyphenFree a2 = true ->
  a1 +++ "-" +++ b1 = a2 +++ "-" +++ b2 -> a1 = a2 /\ b1 = b2.
Proof.
  revert a2; induction a1 as [|c a1 IH]; intros [|c2 a2]; cbn; intros H1 H2 Heq.
  - injection Heq as ->. now split.
  - injection Heq as <- _. now rewrite Ascii.eqb_refl in H2.
  - injection Heq as -> _. now rewrite Ascii.eqb_refl in H1.
  - injection Heq as -> Heq.
    apply andb_true_iff in H1 as [_ H1]. apply andb_true_iff in H2 as [_ H2].
    destruct (IH a2 H1 H2 Heq) as [-> ->]. now split.
Qed.

Lemma joined_pairs_NoDup (l : list string) :
  NoDup l -> Forall (fun b => hyphenFree b = true) l ->
  NoDup (map (fun p : Tuple => breakpointKey (inr p)) (orderedPairs l)).
Proof.
  intros Hnd Hfree. apply NoDup_map_NoDup_ForallPairs;
    [|now apply orderedPairs_NoDup].
  rewrite Forall_forall in Hfree.
  intros [a1 b1] [a2 b2] H1 H2 Heq. cbn [breakpointKey] in Heq.
  apply orderedPairs_fst in H1 as [H1 _]. apply orderedPairs_fst in H2 as [H2 _].
  destruct (join_injective a1 b1 a2 b2) as [-> ->]; auto.
Qed.

End Combinations.
(** ** Construction *)

Section Construction.

Variable propKey : MediaBreakpointProps -> option MediaBreakpointKey.
Hypothesis propKey_one : propKey_single propKey.

(** The methods read [_sortedBreakpoints] and [_breakpoints] only, so they
    do during construction what they do on the finished instance. *)
Lemma compile_fields (sorted : list string) (o : object)
  (q q' : option MediaQueries) (props : MediaBreakpointProps) :
  _createBreakpointQuery propKey (mkBreakpoints sorted o q) props
  = _createBreakpointQuery propKey (mkBreakpoints sorted o q') props.
Proof. reflexivity. Qed.

Lemma admit_fields (sorted : list string) (o : object)
  (q q' : option MediaQueries) (props : MediaBreakpointProps)
  (onlyRenderAt : list string) :
  shouldRenderMediaQuery propKey (mkBreakpoints sorted o q) props onlyRenderAt
  = shouldRenderMediaQuery propKey (mkBreakpoints sorted o q') props onlyRenderAt.
Proof. reflexivity. Qed.

Lemma queriesOf_fields (sorted : list string) (o : object)
  (q q' : option MediaQueries) (key : MediaBreakpointKey)
  (l : list (operand key)) (m : Map) :
  queriesOf propKey (mkBreakpoints sorted o q) key l m
  = queriesOf propKey (mkBreakpoints sorted o q') key l m.
Proof. reflexivity. Qed.

Section Queries.

Variable this : Breakpoints.
Variable key : MediaBreakpointKey.

Let compiles (breakpoint : operand key) : Prop :=
  exists query,
    _createBreakpointQuery propKey this (singleProp key breakpoint) = Return query.

Let step (acc : Completion Map) (breakpoint : operand key) : Completion Map :=
  map <- acc ;;
  query <- _createBreakpointQuery propKey this (singleProp key breakpoint) ;;
  Return (Map_set map (breakpointKey (as_union key breakpoint)) query).

Lemma queries_fold_Throw (l : list (operand key)) (e : Exception) :
  fold_left step l (Throw e) = Throw e.
Proof. induction l as [|b l IH]; [reflexivity|exact IH]. Qed.

Lemma queries_fold_Return (l : list (operand key)) (m : Map) :
  Forall compiles l ->
  fold_left step l (Return m) = Return (queriesOf propKey this key l m).
Proof.
  intros H; revert m; induction H as [|b l [query Hb] _ IH]; intros m;
    [reflexivity|].
  cbn [fold_left queriesOf]. unfold step at 2, queryText. cbn [bind].
  rewrite Hb. cbn [bind]. apply IH.
Qed.

Lemma queries_fold_inv (l : list (operand key)) (m m' : Map) :
  fold_left step l (Return m) = Return m' -> Forall compiles l.
Proof.
  revert m; induction l as [|b l IH]; intros m; [constructor|].
  cbn [fold_left]. unfold step at 2. cbn [bind].
  destruct (_createBreakpointQuery propKey this (singleProp key b))
    as [query|e] eqn:Hb; cbn [bind].
  - intros H. constructor; [now exists query|now apply IH in H].
  - now rewrite queries_fold_Throw.
Qed.

(** [_createBreakpointQueries] returns iff every operand compiles, and then
    it returns [queriesOf]. *)
Lemma createQueries_Return (l : list (operand key)) (m : Map) :
  _createBreakpointQueries propKey this key l = Return m <->
  Forall compiles l /\ m = queriesOf propKey this key l [].
Proof.
  change (_createBreakpointQueries propKey this key l)
    with (fold_left step l (Return [])).
  split.
  - intros H. assert (Hall := queries_fold_inv _ _ _ H).
    rewrite (queries_fold_Return _ _ Hall) in H. now injection H as <-.
  - intros [Hall ->]. now apply queries_fold_Return.
Qed.

End Queries.

(** What a finished construction has computed. *)
Lemma constructor_Return (o : object) (this : Breakpoints) :
  constructor propKey o = Return this ->
  exists q,
    this = mkBreakpoints (sortBreakpoints o) o (Some q) /\
    _createBreakpointQueries propKey this K_at (sortBreakpoints o)
      = Return (q_at q) /\
    _createBreakpointQueries propKey this K_lessThan
      (slice_from 1 (sortBreakpoints o)) = Return (q_lessThan q) /\
    _createBreakpointQueries propKey this K_greaterThan
      (slice_init (sortBreakpoints o)) = Return (q_greaterThan q) /\
    _createBreakpointQueries propKey this K_greaterThanOrEqual
      (sortBreakpoints o) = Return (q_greaterThanOrEqual q) /\
    _createBreakpointQueries propKey this K_between
      (betweenCombinations (sortBreakpoints o)) = Return (q_between q).
Proof.
  unfold constructor. set (this0 := mkBreakpoints (sortBreakpoints o) o None).
  destruct (_createBreakpointQueries propKey this0 K_at _) as [m1|] eqn:H1;
    [|discriminate].
  destruct (_createBreakpointQueries propKey this0 K_lessThan _) as [m2|] eqn:H2;
    [|discriminate].
  destruct (_createBreakpointQueries propKey this0 K_greaterThan _) as [m3|] eqn:H3;
    [|discriminate].
  destruct (_createBreakpointQueries propKey this0 K_greaterThanOrEqual _)
    as [m4|] eqn:H4; [|discriminate].
  destruct (_createBreakpointQueries propKey this0 K_between _) as [m5|] eqn:H5;
    [|discriminate].
  cbn [bind]. intros H; injection H as <-.
  exists (mkQueries m1 m2 m3 m4 m5). cbn [q_at q_lessThan q_greaterThan
    q_greaterThanOrEqual q_between].
  repeat split; assumption.
Qed.

Lemma constructor_fields (o : object) (this : Breakpoints) :
  constructor propKey o = Return this ->
  _sortedBreakpoints this = sortBreakpoints o /\ _breakpoints this = o.
Proof.
  intros H. apply constructor_Return in H as (q & -> & _). now split.
Qed.

(** A construction that returns has met no empty name: [at("")] throws. *)
Lemma constructor_names (o : object) (this : Breakpoints) :
  constructor propKey o = Return this ->
  Forall (fun b => b <> ""%string) (_sortedBreakpoints this).
Proof.
  intros H. apply constructor_Return in H as (q & -> & Hat & _).
  apply createQueries_Return in Hat as [Hall _].
  cbn [_sortedBreakpoints]. eapply Forall_impl; [|exact Hall].
  intros b [query Hb] ->. cbn beta in Hb.
  now rewrite compile_at_empty in Hb.
Qed.

End Construction.

Section Totality.

Variable propKey : MediaBreakpointProps -> option MediaBreakpointKey.
Hypothesis propKey_one : propKey_single propKey.

Lemma In_removelast_split (l : list string) (b : string) :
  In b (removelast l) -> exists pre next post, l = pre ++ b :: next :: post.
Proof.
  induction l as [|x l IH]; [easy|].
  destruct l as [|y l]; [easy|].
  change (removelast (x :: y :: l)) with (x :: removelast (y :: l)).
  intros [->|Hin].
  - now exists [], y, l.
  - destruct (IH Hin) as (pre & next & post & ->).
    now exists (x :: pre), next, post.
Qed.

(** On a sequence of distinct non-empty names every enumerated directive
    compiles. *)
Lemma at_compiles (this : Breakpoints) (b : string) :
  b <> ""%string ->
  exists query,
    _createBreakpointQuery propKey this (singleProp K_at b) = Return query.
Proof.
  intros Hb. rewrite <- compile_normalized, (normalize_at this b Hb).
  destruct (Array_get _ _) as [to|];
    [destruct (truthy (Some to))|]; eexists;
    first [now apply compile_between | now apply compile_greaterThanOrEqual].
Qed.

Lemma greaterThan_compiles (this : Breakpoints) (b : string) :
  NoDup (_sortedBreakpoints this) ->
  Forall (fun b => b <> ""%string) (_sortedBreakpoints this) ->
  In b (slice_init (_sortedBreakpoints this)) ->
  exists query,
    _createBreakpointQuery propKey this (singleProp K_greaterThan b)
    = Return query.
Proof.
  intros Hnd Hne Hin.
  apply In_removelast_split in Hin as (pre & next & post & Hs).
  rewrite (compile_greaterThan propKey propKey_one).
  rewrite (findNext_middle this pre post b next Hs Hnd).
  - eexists; reflexivity.
  - rewrite Forall_forall in Hne. apply Hne. rewrite Hs.
    apply in_or_app; right; right; now left.
Qed.

Lemma constructor_total (o : object) :
  NoDup (Object_keys o) ->
  Forall (fun b => b <> ""%string) (Object_keys o) ->
  exists this, constructor propKey o = Return this.
Proof.
  intros Hnd Hne.
  assert (Hnd' := sortBreakpoints_NoDup o Hnd).
  assert (Hne' : Forall (fun b => b <> ""%string) (sortBreakpoints o)).
  { rewrite Forall_forall in *. intros b Hb. apply Hne.
    now apply sortBreakpoints_In. }
  unfold constructor. set (this0 := mkBreakpoints (sortBreakpoints o) o None).
  assert (H1 : _createBreakpointQueries propKey this0 K_at (sortBreakpoints o)
               = Return (queriesOf propKey this0 K_at (sortBreakpoints o) [])).
  { apply createQueries_Return. split; [|reflexivity].
    eapply Forall_impl; [|exact Hne']. intros b Hb. now apply at_compiles. }
  assert (H2 : _createBreakpointQueries propKey this0 K_lessThan
                 (slice_from 1 (sortBreakpoints o))
               = Return (queriesOf propKey this0 K_lessThan
                           (slice_from 1 (sortBreakpoints o)) [])).
  { apply createQueries_Return. split; [|reflexivity].
    apply Forall_forall. intros b _. eexists. now apply compile_lessThan. }
  assert (H3 : _createBreakpointQueries propKey this0 K_greaterThan
                 (slice_init (sortBreakpoints o))
               = Return (queriesOf propKey this0 K_greaterThan
                           (slice_init (sortBreakpoints o)) [])).
  { apply createQueries_Return. split; [|reflexivity].
    apply Forall_forall. intros b Hb. now apply greaterThan_compiles. }
  assert (H4 : _createBreakpointQueries propKey this0 K_greaterThanOrEqual
                 (sortBreakpoints o)
               = Return (queriesOf propKey this0 K_greaterThanOrEqual
                           (sortBreakpoints o) [])).
  { apply createQueries_Return. split; [|reflexivity].
    apply Forall_forall. intros b _. eexists.
    now apply compile_greaterThanOrEqual. }
  assert (H5 : _createBreakpointQueries propKey this0 K_between
                 (betweenCombinations (sortBreakpoints o))
               = Return (queriesOf propKey this0 K_between
                           (betweenCombinations (sortBreakpoints o)) [])).
  { apply createQueries_Return. split; [|reflexivity].
    apply Forall_forall. intros [b1 b2] _. eexists. now apply compile_between. }
  rewrite H1, H2, H3, H4, H5. cbn [bind]. eexists; reflexivity.
Qed.

End Totality.

(** What the statements about a finished registry start from: its names are
    non-empty ([Hnames]), its fields are the sorted names and the object
    ([Hsorted], [Hobj]), and the sorted names are without repetition
    ([Hnd]). *)
Ltac registry_facts Hone Hkeys Hthis :=
  pose proof (constructor_names _ Hone _ _ Hthis) as Hnames;
  rewrite Forall_forall in Hnames;
  pose proof (constructor_fields _ _ _ Hthis) as [Hsorted Hobj];
  pose proof (sortBreakpoints_NoDup _ Hkeys) as Hnd;
  rewrite <- Hsorted in Hnd.
(** ** Widths of the render list, [Math.min] and [Math.max] *)

Section Widths.

Lemma largest_last (this : Breakpoints) (b : string) :
  getLargestBreakpoint this = Some b ->
  exists pre, _sortedBreakpoints this = pre ++ [b].
Proof.
  unfold getLargestBreakpoint.
  destruct (_sortedBreakpoints this) as [|x l] eqn:Hs; [discriminate|].
  rewrite <- Hs. intros H.
  assert (Hne : _sortedBreakpoints this <> []) by (rewrite Hs; discriminate).
  exists (removelast (_sortedBreakpoints this)).
  rewrite (app_removelast_last b Hne) at 1. do 2 f_equal.
  replace (Z.of_nat (List.length (_sortedBreakpoints this)) - 1)
    with (Z.of_nat (List.length (_sortedBreakpoints this) - 1)) in H
    by (rewrite Hs; cbn [List.length]; lia).
  rewrite Array_get_nth in H.
  rewrite (app_removelast_last b Hne) in H at 1.
  rewrite nth_error_app2 in H
    by (rewrite (app_removelast_last b Hne) at 2; rewrite length_app; cbn; lia).
  replace (List.length (_sortedBreakpoints this) - 1
           - List.length (removelast (_sortedBreakpoints this)))%nat
    with 0%nat in H
    by (rewrite (app_removelast_last b Hne) at 1; rewrite length_app; cbn; lia).
  now injection H.
Qed.

Lemma known_widths (o : object) (names : list string) :
  Forall (fun a => In a (Object_keys o)) names ->
  exists ws, widthsOf o names ws.
Proof.
  induction 1 as [|a names Ha _ [ws IH]]; [now exists []|].
  destruct (Object_get_present o a Ha) as [w Hw].
  exists (w :: ws). unfold widthsOf in *. cbn [map]. now rewrite Hw, IH.
Qed.

Lemma widthsOf_nonempty (o : object) (names : list string) (ws : list Z) :
  names <> [] -> widthsOf o names ws -> exists w ws', ws = w :: ws'.
Proof.
  unfold widthsOf. destruct names; [easy|]. destruct ws; [easy|].
  intros _ _. now eexists _, _.
Qed.

Lemma fold_number_min (ws : list Z) (w : Z) :
  fold_left number_min (map ToNumber (map (fun w => Number (Num w)) ws)) (Num w)
  = Num (fold_left Z.min ws w).
Proof.
  revert w; induction ws as [|x ws IH]; intros w; [reflexivity|].
  cbn [map fold_left ToNumber]. unfold number_min at 2.
  cbn [is_NaN orb number_lt].
  replace (if x <? w then Num x else Num w) with (Num (Z.min w x)).
  - apply IH.
  - destruct (Z.ltb_spec x w); f_equal; lia.
Qed.

Lemma fold_number_max (ws : list Z) (w : Z) :
  fold_left number_max (map ToNumber (map (fun w => Number (Num w)) ws)) (Num w)
  = Num (fold_left Z.max ws w).
Proof.
  revert w; induction ws as [|x ws IH]; intros w; [reflexivity|].
  cbn [map fold_left ToNumber]. unfold number_max at 2.
  cbn [is_NaN orb number_lt].
  replace (if w <? x then Num x else Num w) with (Num (Z.max w x)).
  - apply IH.
  - destruct (Z.ltb_spec w x); f_equal; lia.
Qed.

(** [Math.min] and [Math.max] of the widths of a non-empty list of known
    names are the smallest and the largest of them. *)
Lemma Math_min_widths (o : object) (names : list string) (w : Z) (ws : list Z) :
  widthsOf o names (w :: ws) ->
  Math_min (map (fun a => Object_get o a) names) = Number (Num (minimum w ws)).
Proof.
  unfold widthsOf, Math_min, minimum. intros H.
  change (fun a => Object_get o a) with (Object_get o). rewrite H.
  cbn [map fold_left ToNumber]. unfold number_min at 2.
  cbn [is_NaN orb number_lt]. now rewrite fold_number_min.
Qed.

Lemma Math_max_widths (o : object) (names : list string) (w : Z) (ws : list Z) :
  widthsOf o names (w :: ws) ->
  Math_max (map (fun a => Object_get o a) names) = Number (Num (maximum w ws)).
Proof.
  unfold widthsOf, Math_max, maximum. intros H.
  change (fun a => Object_get o a) with (Object_get o). rewrite H.
  cbn [map fold_left ToNumber]. unfold number_max at 2.
  cbn [is_NaN orb number_lt]. now rewrite fold_number_max.
Qed.

Lemma lt_Num (x y : Z) : lt (Number (Num x)) (Number (Num y)) = (x <? y).
Proof. reflexivity. Qed.

Lemma ge_Num (x y : Z) : ge (Number (Num x)) (Number (Num y)) = (x >=? y).
Proof.
  unfold ge. cbn. rewrite Z.geb_leb.
  destruct (Z.ltb_spec x y), (Z.leb_spec y x); cbn; try reflexivity; lia.
Qed.

End Widths.

(** ** The examples of the specification, evaluated *)

Section Examples.

Let compile := _createBreakpointQuery propKey_first smMdLgRegistry.
Let admit_ := shouldRenderMediaQuery propKey_first smMdLgRegistry.

Example sorted_smMdLg :
  getMediaQueryTypes smMdLgRegistry = ["sm"; "md"; "lg"]%string.
Proof. reflexivity. Qed.

Example sorted_lgSmMd : sortBreakpoints lgSmMd = ["sm"; "md"; "lg"]%string.
Proof. reflexivity. Qed.

Example largest_smMdLg : getLargestBreakpoint smMdLgRegistry = Some "lg"%string.
Proof. reflexivity. Qed.

Example compile_lessThan_lg :
  compile (singleProp K_lessThan "lg"%string) = Return "(max-width:1023px)"%string.
Proof. reflexivity. Qed.

Example compile_greaterThan_lg :
  compile (singleProp K_greaterThan "lg"%string)
  = Throw (Error "There is no breakpoint larger than lg").
Proof. reflexivity. Qed.

Example compile_at_md :
  compile (singleProp K_at "md"%string)
  = Return "(min-width:768px) and (max-width:1023px)"%string.
Proof. reflexivity. Qed.

Example admit_lessThan_md :
  admit_ (singleProp K_lessThan "md"%string) ["sm"; "lg"]%string
  = Return (Some true).
Proof. reflexivity. Qed.

Example admit_greaterThanOrEqual_lg :
  admit_ (singleProp K_greaterThanOrEqual "lg"%string) ["sm"; "lg"]%string
  = Return (Some true).
Proof. reflexivity. Qed.

Example admit_between_sm_md :
  admit_ (singleProp K_between ("sm", "md")%string) ["sm"; "lg"]%string
  = Return (Some true).
Proof. reflexivity. Qed.

Example admit_greaterThan_md :
  admit_ (singleProp K_greaterThan "md"%string) ["sm"%string]
  = Return (Some false).
Proof. reflexivity. Qed.

(** An empty name stops the construction at [at("")]. *)
Example empty_name_throws :
  constructor propKey_first [("sm"%string, 0); (""%string, 768)]
  = Throw (UnexpectedBreakpointProps (singleProp K_at ""%string)).
Proof. reflexivity. Qed.

End Examples.
(** ** Properties of the specification *)

Lemma propKey_first_single : propKey_single propKey_first.
Proof. intros [] b; reflexivity. Qed.

Lemma propKey_first_none : propKey_none propKey_first.
Proof. reflexivity. Qed.

Lemma smMdLg_keys : NoDup (Object_keys smMdLg).
Proof. repeat constructor; cbn; intuition discriminate. Qed.

Lemma smMdLg_safe : safeWidths smMdLg.
Proof.
  intros k w [H|[H|[H|[]]]]; injection H as <- <-; unfold safeInteger;
    cbn; lia.
Qed.

Lemma smMdLg_constructed : constructor propKey_first smMdLg = Return smMdLgRegistry.
Proof. vm_compute. reflexivity. Qed.

Lemma StronglySorted_widths (o : object) :
  StronglySorted lt_width o -> StronglySorted Z.lt (map snd o).
Proof.
  induction 1 as [|x o Hs IH Hall]; cbn [map]; constructor; [exact IH|].
  rewrite Forall_forall in *. intros w Hw.
  apply in_map_iff in Hw as (y & <- & Hy). now apply Hall.
Qed.

(** C7. For a breakpoint set with pairwise distinct widths (two or more, or
    fewer), the sorted breakpoint sequence that construction computes has the
    length of the set, holds every breakpoint name exactly once (it is a
    permutation of the names without repetition), and the widths read along
    it are strictly ascending. *)
Theorem sorted_sequence_strictly_ascending (o : object) :
  NoDup (Object_keys o) ->
  NoDup (map snd o) ->
  List.length (sortBreakpoints o) = List.length o /\
  Permutation (sortBreakpoints o) (Object_keys o) /\
  NoDup (sortBreakpoints o) /\
  (exists ws, widthsOf o (sortBreakpoints o) ws /\ StronglySorted Z.lt ws) /\
  (forall propKey this,
      constructor propKey o = Return this ->
      _sortedBreakpoints this = sortBreakpoints o).
Proof.
  intros Hkeys Hwidths.
  assert (Hperm := sortBreakpoints_perm o Hkeys).
  repeat split.
  - rewrite (Permutation_length Hperm). apply length_map.
  - exact Hperm.
  - now apply sortBreakpoints_NoDup.
  - exists (map snd (sortByWidth o)). split.
    + now apply sortBreakpoints_widths.
    + now apply StronglySorted_widths, sortByWidth_strict.
  - intros propKey this H. now apply constructor_fields in H.
Qed.

Lemma sorted_sequence_strictly_ascending_witness :
  NoDup (Object_keys lgSmMd) /\ NoDup (map snd lgSmMd) /\
  List.length (sortBreakpoints lgSmMd) = 3%nat /\
  Permutation (sortBreakpoints lgSmMd) ["lg"; "sm"; "md"]%string.
Proof.
  assert (Hk : NoDup (Object_keys lgSmMd))
    by (repeat constructor; cbn; intuition discriminate).
  assert (Hw : NoDup (map snd lgSmMd))
    by (repeat constructor; cbn; intuition discriminate).
  destruct (sorted_sequence_strictly_ascending lgSmMd Hk Hw) as (Hl & Hp & _).
  repeat split; assumption.
Defined.

(** C1. On the registry of any breakpoint set whose widths are safe integers
    (the range in which [width - 1] and the text of a width are exact),
    [_createBreakpointQuery] compiles [lessThan(b)] to
    ["(max-width:<width(b)-1>px)"], [greaterThanOrEqual(b)] to
    ["(min-width:<width(b)>px)"], [between(b1,b2)] to
    ["(min-width:<width(b1)>px) and (max-width:<width(b2)-1>px)"] and, for
    [b] followed by [next] in the sorted sequence, [greaterThan(b)] to
    ["(min-width:<width(next)>px)"]; on [{sm: 0, md: 768, lg: 1024}] the
    three examples compile to the strings of the specification. *)
Theorem createBreakpointQuery_strings
  (propKey : MediaBreakpointProps -> option MediaBreakpointKey) :
  propKey_single propKey ->
  (forall (o : object) (this : Breakpoints),
      NoDup (Object_keys o) ->
      safeWidths o ->
      constructor propKey o = Return this ->
      (forall b w,
          In (b, w) o ->
          _createBreakpointQuery propKey this (singleProp K_lessThan b)
          = Return ("(max-width:" +++ decimal (w - 1) +++ "px)")) /\
      (forall b w,
          In (b, w) o ->
          _createBreakpointQuery propKey this (singleProp K_greaterThanOrEqual b)
          = Return ("(min-width:" +++ decimal w +++ "px)")) /\
      (forall b1 w1 b2 w2,
          In (b1, w1) o -> In (b2, w2) o ->
          _createBreakpointQuery propKey this (singleProp K_between (b1, b2))
          = Return ("(min-width:" +++ decimal w1
                    +++ "px) and (max-width:" +++ decimal (w2 - 1) +++ "px)")) /\
      (forall pre b next post w,
          _sortedBreakpoints this = pre ++ b :: next :: post ->
          In (next, w) o ->
          _createBreakpointQuery propKey this (singleProp K_greaterThan b)
          = Return ("(min-width:" +++ decimal w +++ "px)"))) /\
  (exists this,
      constructor propKey smMdLg = Return this /\
      _createBreakpointQuery propKey this (singleProp K_lessThan "lg"%string)
      = Return "(max-width:1023px)"%string /\
      _createBreakpointQuery propKey this
        (singleProp K_greaterThanOrEqual "md"%string)
      = Return "(min-width:768px)"%string /\
      _createBreakpointQuery propKey this
        (singleProp K_between ("sm", "lg")%string)
      = Return "(min-width:0px) and (max-width:1023px)"%string).
Proof.
  intros Hone.
  assert (General : forall (o : object) (this : Breakpoints),
      NoDup (Object_keys o) ->
      safeWidths o ->
      constructor propKey o = Return this ->
      (forall b w,
          In (b, w) o ->
          _createBreakpointQuery propKey this (singleProp K_lessThan b)
          = Return ("(max-width:" +++ decimal (w - 1) +++ "px)")) /\
      (forall b w,
          In (b, w) o ->
          _createBreakpointQuery propKey this (singleProp K_greaterThanOrEqual b)
          = Return ("(min-width:" +++ decimal w +++ "px)")) /\
      (forall b1 w1 b2 w2,
          In (b1, w1) o -> In (b2, w2) o ->
          _createBreakpointQuery propKey this (singleProp K_between (b1, b2))
          = Return ("(min-width:" +++ decimal w1
                    +++ "px) and (max-width:" +++ decimal (w2 - 1) +++ "px)")) /\
      (forall pre b next post w,
          _sortedBreakpoints this = pre ++ b :: next :: post ->
          In (next, w) o ->
          _createBreakpointQuery propKey this (singleProp K_greaterThan b)
          = Return ("(min-width:" +++ decimal w +++ "px)"))).
  { intros o this Hkeys Hsafe Hthis.
    registry_facts Hone Hkeys Hthis.
    repeat split.
    - intros b w Hb. rewrite (compile_lessThan propKey Hone), Hobj.
      now rewrite (Object_get_In o b w).
    - intros b w Hb. rewrite (compile_greaterThanOrEqual propKey Hone), Hobj.
      now rewrite (Object_get_In o b w).
    - intros b1 w1 b2 w2 H1 H2. rewrite (compile_between propKey Hone), Hobj.
      now rewrite (Object_get_In o b1 w1), (Object_get_In o b2 w2).
    - intros pre b next post w Hs Hnext.
      rewrite (compile_greaterThan propKey Hone).
      rewrite (findNext_middle this pre post b next Hs).
      + cbn [bind]. rewrite Hobj. now rewrite (Object_get_In o next w).
      + exact Hnd.
      + apply Hnames. rewrite Hs.
        apply in_or_app; right; right; now left. }
  split; [exact General|].
  destruct (constructor_total propKey Hone smMdLg smMdLg_keys) as [this Hthis].
  { repeat constructor; discriminate. }
  exists this. split; [exact Hthis|].
  destruct (General smMdLg this smMdLg_keys smMdLg_safe Hthis)
    as (Hlt & Hge & Hbt & _).
  repeat split.
  - apply (Hlt "lg"%string 1024). cbn; tauto.
  - apply (Hge "md"%string 768). cbn; tauto.
  - apply (Hbt "sm"%string 0 "lg"%string 1024); cbn; tauto.
Qed.

Lemma createBreakpointQuery_strings_witness :
  propKey_single propKey_first /\
  NoDup (Object_keys smMdLg) /\
  safeWidths smMdLg /\
  constructor propKey_first smMdLg = Return smMdLgRegistry /\
  _createBreakpointQuery propKey_first smMdLgRegistry
    (singleProp K_greaterThan "sm"%string)
  = Return "(min-width:768px)"%string.
Proof.
  destruct (createBreakpointQuery_strings propKey_first propKey_first_single)
    as [General _].
  destruct (General smMdLg smMdLgRegistry smMdLg_keys smMdLg_safe
              smMdLg_constructed)
    as (_ & _ & _ & Hgt).
  split; [exact propKey_first_single|].
  split; [exact smMdLg_keys|].
  split; [exact smMdLg_safe|].
  split; [exact smMdLg_constructed|].
  exact (Hgt [] "sm" "md" ["lg"] 768 eq_refl (or_intror (or_introl eq_refl)))%string.
Defined.

Lemma minimum_least (w : Z) (ws : list Z) :
  In (minimum w ws) (w :: ws) /\ Forall (fun x => minimum w ws <= x) (w :: ws).
Proof.
  unfold minimum. revert w; induction ws as [|x ws IH]; intros w; cbn [fold_left].
  - split; [now left|]. repeat constructor. lia.
  - destruct (IH (Z.min w x)) as [Hin Hall]. split.
    + destruct Hin as [Hin|Hin]; [|now right; right].
      rewrite <- Hin. destruct (Z.min_spec w x) as [[_ ->]|[_ ->]];
        [now left|right; now left].
    + inversion Hall as [|? ? Hm Hall']; subst.
      repeat constructor; [lia|lia|exact Hall'].
Qed.

Lemma maximum_greatest (w : Z) (ws : list Z) :
  In (maximum w ws) (w :: ws) /\ Forall (fun x => x <= maximum w ws) (w :: ws).
Proof.
  unfold maximum. revert w; induction ws as [|x ws IH]; intros w; cbn [fold_left].
  - split; [now left|]. repeat constructor. lia.
  - destruct (IH (Z.max w x)) as [Hin Hall]. split.
    + destruct Hin as [Hin|Hin]; [|now right; right].
      rewrite <- Hin. destruct (Z.max_spec w x) as [[_ ->]|[_ ->]];
        [right; now left|now left].
    + inversion Hall as [|? ? Hm Hall']; subst.
      repeat constructor; [lia|lia|exact Hall'].
Qed.

(** C2. On the registry of any breakpoint set and for a non-empty list
    [onlyRenderAt] of known names, with [min] and [max] the smallest and the
    largest of their widths, [shouldRenderMediaQuery] returns: for
    [lessThan(b)], whether [min < width(b)]; for [greaterThan(b)] with [b]
    followed by [next], whether [max >= width(next)]; for
    [greaterThanOrEqual(b)], whether [max >= width(b)]; for [between(b1,b2)],
    whether not ([max < width(b1)] or [min >= width(b2)]). *)
Theorem shouldRenderMediaQuery_admission
  (propKey : MediaBreakpointProps -> option MediaBreakpointKey)
  (o : object) (this : Breakpoints) (onlyRenderAt : list string) :
  propKey_single propKey ->
  NoDup (Object_keys o) ->
  constructor propKey o = Return this ->
  onlyRenderAt <> [] ->
  Forall (fun a => In a (Object_keys o)) onlyRenderAt ->
  exists w0 ws,
    widthsOf o onlyRenderAt (w0 :: ws) /\
    (forall b w,
        In (b, w) o ->
        shouldRenderMediaQuery propKey this (singleProp K_lessThan b) onlyRenderAt
        = Return (Some (minimum w0 ws <? w))) /\
    (forall pre b next post w,
        _sortedBreakpoints this = pre ++ b :: next :: post ->
        In (next, w) o ->
        shouldRenderMediaQuery propKey this (singleProp K_greaterThan b)
          onlyRenderAt
        = Return (Some (maximum w0 ws >=? w))) /\
    (forall b w,
        In (b, w) o ->
        shouldRenderMediaQuery propKey this (singleProp K_greaterThanOrEqual b)
          onlyRenderAt
        = Return (Some (maximum w0 ws >=? w))) /\
    (forall b1 w1 b2 w2,
        In (b1, w1) o -> In (b2, w2) o ->
        shouldRenderMediaQuery propKey this (singleProp K_between (b1, b2))
          onlyRenderAt
        = Return (Some (negb ((maximum w0 ws <? w1) || (minimum w0 ws >=? w2))))).
Proof.
  intros Hone Hkeys Hthis Hne Hknown.
  destruct (known_widths o onlyRenderAt Hknown) as [ws0 Hws].
  destruct (widthsOf_nonempty o onlyRenderAt ws0 Hne Hws) as (w0 & ws & ->).
  exists w0, ws. split; [exact Hws|].
  registry_facts Hone Hkeys Hthis.
  assert (Hmin := Math_min_widths o onlyRenderAt w0 ws Hws).
  assert (Hmax := Math_max_widths o onlyRenderAt w0 ws Hws).
  repeat split.
  - intros b w Hb. rewrite (admit_lessThan propKey Hone), Hobj, Hmin.
    now rewrite (Object_get_In o b w).
  - intros pre b next post w Hs Hnext.
    rewrite (admit_greaterThan propKey Hone).
    rewrite (findNext_middle this pre post b next Hs).
    + cbn [bind]. rewrite Hobj, Hmax, (Object_get_In o next w) by assumption.
      now rewrite ge_Num.
    + exact Hnd.
    + apply Hnames. rewrite Hs.
      apply in_or_app; right; right; now left.
  - intros b w Hb. rewrite (admit_greaterThanOrEqual propKey Hone), Hobj, Hmax.
    rewrite (Object_get_In o b w) by assumption. now rewrite ge_Num.
  - intros b1 w1 b2 w2 H1 H2.
    rewrite (admit_between propKey Hone), Hobj, Hmin, Hmax.
    rewrite (Object_get_In o b1 w1), (Object_get_In o b2 w2) by assumption.
    now rewrite ge_Num, lt_Num.
Qed.

Lemma shouldRenderMediaQuery_admission_witness :
  propKey_single propKey_first /\
  NoDup (Object_keys smMdLg) /\
  constructor propKey_first smMdLg = Return smMdLgRegistry /\
  ["sm"; "lg"]%string <> [] /\
  Forall (fun a => In a (Object_keys smMdLg)) ["sm"; "lg"]%string /\
  exists w0 ws,
    widthsOf smMdLg ["sm"; "lg"]%string (w0 :: ws) /\
    shouldRenderMediaQuery propKey_first smMdLgRegistry
      (singleProp K_lessThan "md"%string) ["sm"; "lg"]%string
    = Return (Some (minimum w0 ws <? 768)).
Proof.
  assert (Hne : ["sm"; "lg"]%string <> []) by discriminate.
  assert (Hknown : Forall (fun a => In a (Object_keys smMdLg)) ["sm"; "lg"]%string)
    by (repeat constructor; cbn; tauto).
  split; [exact propKey_first_single|].
  split; [exact smMdLg_keys|].
  split; [exact smMdLg_constructed|].
  split; [exact Hne|].
  split; [exact Hknown|].
  destruct (shouldRenderMediaQuery_admission propKey_first smMdLg smMdLgRegistry
              ["sm"; "lg"]%string propKey_first_single smMdLg_keys
              smMdLg_constructed Hne Hknown)
    as (w0 & ws & Hws & Hlt & _).
  exists w0, ws. split; [exact Hws|].
  apply (Hlt "md"%string 768). cbn; tauto.
Defined.

(** C4. On the registry of any breakpoint set, [greaterThan(b)] for the
    largest breakpoint [b] (the last of the sorted sequence) makes both
    [_createBreakpointQuery] and [shouldRenderMediaQuery] throw the error
    ["There is no breakpoint larger than <b>"]; no query string is
    returned. *)
Theorem greaterThan_largest_throws
  (propKey : MediaBreakpointProps -> option MediaBreakpointKey)
  (o : object) (this : Breakpoints) (b : string) :
  propKey_single propKey ->
  NoDup (Object_keys o) ->
  constructor propKey o = Return this ->
  getLargestBreakpoint this = Some b ->
  _createBreakpointQuery propKey this (singleProp K_greaterThan b)
  = Throw (Error ("There is no breakpoint larger than " +++ b)) /\
  forall onlyRenderAt,
    shouldRenderMediaQuery propKey this (singleProp K_greaterThan b) onlyRenderAt
    = Throw (Error ("There is no breakpoint larger than " +++ b)).
Proof.
  intros Hone Hkeys Hthis Hlargest.
  registry_facts Hone Hkeys Hthis.
  destruct (largest_last this b Hlargest) as [pre Hs].
  split; [|intros onlyRenderAt].
  - rewrite (compile_greaterThan propKey Hone).
    now rewrite (findNext_last this pre b Hs Hnd).
  - rewrite (admit_greaterThan propKey Hone).
    now rewrite (findNext_last this pre b Hs Hnd).
Qed.

Lemma greaterThan_largest_throws_witness :
  propKey_single propKey_first /\
  NoDup (Object_keys smMdLg) /\
  constructor propKey_first smMdLg = Return smMdLgRegistry /\
  getLargestBreakpoint smMdLgRegistry = Some "lg"%string /\
  _createBreakpointQuery propKey_first smMdLgRegistry
    (singleProp K_greaterThan "lg"%string)
  = Throw (Error "There is no breakpoint larger than lg").
Proof.
  split; [exact propKey_first_single|].
  split; [exact smMdLg_keys|].
  split; [exact smMdLg_constructed|].
  split; [reflexivity|].
  exact (proj1 (greaterThan_largest_throws propKey_first smMdLg smMdLgRegistry
                  "lg"%string propKey_first_single smMdLg_keys
                  smMdLg_constructed eq_refl)).
Defined.

(** C3. On the registry of any breakpoint set, for [b] followed by [next] in
    the sorted sequence [at(b)] compiles to the very string [between(b,
    next)] compiles to, and for the largest breakpoint [at(b)] compiles to
    the string of [greaterThanOrEqual(b)]; [shouldRenderMediaQuery] applies
    the same normalization: on every directive and every list it returns
    what it returns on the normalized directive, which for [at(b)] is
    [between(b, next)], or [greaterThanOrEqual(b)] for the largest. *)
Theorem at_normalization
  (propKey : MediaBreakpointProps -> option MediaBreakpointKey)
  (o : object) (this : Breakpoints) :
  propKey_single propKey ->
  NoDup (Object_keys o) ->
  constructor propKey o = Return this ->
  (forall pre b next post,
      _sortedBreakpoints this = pre ++ b :: next :: post ->
      _normalizeProps this (singleProp K_at b) = singleProp K_between (b, next) /\
      exists query,
        _createBreakpointQuery propKey this (singleProp K_at b) = Return query /\
        _createBreakpointQuery propKey this (singleProp K_between (b, next))
        = Return query) /\
  (forall b,
      getLargestBreakpoint this = Some b ->
      _normalizeProps this (singleProp K_at b) = singleProp K_greaterThanOrEqual b /\
      exists query,
        _createBreakpointQuery propKey this (singleProp K_at b) = Return query /\
        _createBreakpointQuery propKey this (singleProp K_greaterThanOrEqual b)
        = Return query) /\
  (forall props onlyRenderAt,
      shouldRenderMediaQuery propKey this props onlyRenderAt
      = shouldRenderMediaQuery propKey this (_normalizeProps this props)
          onlyRenderAt).
Proof.
  intros Hone Hkeys Hthis.
  registry_facts Hone Hkeys Hthis.
  split; [|split].
  - intros pre b next post Hs.
    assert (Hb : b <> ""%string)
      by (apply Hnames; rewrite Hs; apply in_or_app; right; now left).
    assert (Hnext : next <> ""%string)
      by (apply Hnames; rewrite Hs; apply in_or_app; right; right; now left).
    assert (Hnorm : _normalizeProps this (singleProp K_at b)
                    = singleProp K_between (b, next)).
    { rewrite (normalize_at this b Hb). rewrite Hs in Hnd |- *.
      rewrite next_in_NoDup by assumption. cbn [hd_error].
      apply truthy_Some in Hnext. now rewrite Hnext. }
    split; [exact Hnorm|].
    rewrite <- (compile_normalized propKey this (singleProp K_at b)), Hnorm.
    eexists. split; now apply compile_between.
  - intros b Hlargest. destruct (largest_last this b Hlargest) as [pre Hs].
    assert (Hb : b <> ""%string)
      by (apply Hnames; rewrite Hs; apply in_or_app; right; now left).
    assert (Hnorm : _normalizeProps this (singleProp K_at b)
                    = singleProp K_greaterThanOrEqual b).
    { rewrite (normalize_at this b Hb). rewrite Hs in Hnd |- *.
      now rewrite next_in_NoDup by assumption. }
    split; [exact Hnorm|].
    rewrite <- (compile_normalized propKey this (singleProp K_at b)), Hnorm.
    eexists. split; now apply compile_greaterThanOrEqual.
  - intros props onlyRenderAt. now rewrite admit_normalized.
Qed.

Lemma at_normalization_witness :
  propKey_single propKey_first /\
  NoDup (Object_keys smMdLg) /\
  constructor propKey_first smMdLg = Return smMdLgRegistry /\
  exists query,
    _createBreakpointQuery propKey_first smMdLgRegistry
      (singleProp K_at "md"%string) = Return query /\
    _createBreakpointQuery propKey_first smMdLgRegistry
      (singleProp K_between ("md", "lg")%string) = Return query.
Proof.
  split; [exact propKey_first_single|].
  split; [exact smMdLg_keys|].
  split; [exact smMdLg_constructed|].
  destruct (at_normalization propKey_first smMdLg smMdLgRegistry
              propKey_first_single smMdLg_keys smMdLg_constructed)
    as (Hadjacent & _).
  exact (proj2 (Hadjacent ["sm"] "md" "lg" [] eq_refl)%string).
Defined.

(** C10. On the registry of any breakpoint set, [shouldRenderMediaQuery] with
    the empty list does not throw and returns [false] on every directive over
    known names: [at(b)], [lessThan(b)], [greaterThanOrEqual(b)],
    [between(b1,b2)], and [greaterThan(b)] for [b] that is not the largest
    ([Math.min()] is [Infinity], [Math.max()] is [-Infinity]). *)
Theorem shouldRenderMediaQuery_empty_list
  (propKey : MediaBreakpointProps -> option MediaBreakpointKey)
  (o : object) (this : Breakpoints) :
  propKey_single propKey ->
  NoDup (Object_keys o) ->
  constructor propKey o = Return this ->
  (forall b,
      In b (Object_keys o) ->
      shouldRenderMediaQuery propKey this (singleProp K_at b) []
      = Return (Some false)) /\
  (forall b,
      In b (Object_keys o) ->
      shouldRenderMediaQuery propKey this (singleProp K_lessThan b) []
      = Return (Some false)) /\
  (forall pre b next post,
      _sortedBreakpoints this = pre ++ b :: next :: post ->
      shouldRenderMediaQuery propKey this (singleProp K_greaterThan b) []
      = Return (Some false)) /\
  (forall b,
      In b (Object_keys o) ->
      shouldRenderMediaQuery propKey this (singleProp K_greaterThanOrEqual b) []
      = Return (Some false)) /\
  (forall b1 b2,
      In b1 (Object_keys o) -> In b2 (Object_keys o) ->
      shouldRenderMediaQuery propKey this (singleProp K_between (b1, b2)) []
      = Return (Some false)).
Proof.
  intros Hone Hkeys Hthis.
  registry_facts Hone Hkeys Hthis.
  assert (Hgte : forall b, In b (Object_keys o) ->
      shouldRenderMediaQuery propKey this (singleProp K_greaterThanOrEqual b) []
      = Return (Some false)).
  { intros b Hb. rewrite (admit_greaterThanOrEqual propKey Hone), Hobj.
    destruct (Object_get_present o b Hb) as [w ->]. reflexivity. }
  assert (Hbetween : forall b1 b2, In b1 (Object_keys o) ->
      shouldRenderMediaQuery propKey this (singleProp K_between (b1, b2)) []
      = Return (Some false)).
  { intros b1 b2 H1. rewrite (admit_between propKey Hone), Hobj.
    destruct (Object_get_present o b1 H1) as [w1 ->]. reflexivity. }
  repeat split.
  - intros b Hb.
    assert (Hbne : b <> ""%string)
      by (apply Hnames; rewrite Hsorted; now apply sortBreakpoints_In).
    rewrite <- admit_normalized, (normalize_at this b Hbne).
    destruct (Array_get _ _) as [to|]; [destruct (truthy (Some to))|]; auto.
  - intros b Hb. rewrite (admit_lessThan propKey Hone), Hobj.
    destruct (Object_get_present o b Hb) as [w ->]. reflexivity.
  - intros pre b next post Hs.
    assert (Hnext : In next (_sortedBreakpoints this))
      by (rewrite Hs; apply in_or_app; right; right; now left).
    rewrite (admit_greaterThan propKey Hone).
    rewrite (findNext_middle this pre post b next Hs Hnd (Hnames next Hnext)).
    cbn [bind]. rewrite Hobj.
    rewrite Hsorted in Hnext. apply sortBreakpoints_In in Hnext; [|assumption].
    destruct (Object_get_present o next Hnext) as [w ->]. reflexivity.
  - exact Hgte.
  - intros b1 b2 H1 _. now apply Hbetween.
Qed.

Lemma shouldRenderMediaQuery_empty_list_witness :
  propKey_single propKey_first /\
  NoDup (Object_keys smMdLg) /\
  constructor propKey_first smMdLg = Return smMdLgRegistry /\
  shouldRenderMediaQuery propKey_first smMdLgRegistry
    (singleProp K_at "sm"%string) []
  = Return (Some false).
Proof.
  split; [exact propKey_first_single|].
  split; [exact smMdLg_keys|].
  split; [exact smMdLg_constructed|].
  destruct (shouldRenderMediaQuery_empty_list propKey_first smMdLg
              smMdLgRegistry propKey_first_single smMdLg_keys
              smMdLg_constructed)
    as (Hat & _).
  apply (Hat "sm"%string). cbn; tauto.
Defined.

Section RuleExport.

Context {RuleSet : Type}.
Variable createClassName : string -> string -> string.
Variable createRuleSet : string -> string -> RuleSet.

Lemma forEach_push (type : MediaBreakpointKey) (queries : Map)
  (acc : list RuleSet) :
  fold_left
    (fun acc '(breakpoint, query) =>
       acc ++ [createRuleSet (createClassName (key_name type) breakpoint)
                 ("not all and " +++ query)])
    queries acc
  = acc ++ map (fun '(breakpoint, query) =>
                  createRuleSet (createClassName (key_name type) breakpoint)
                    ("not all and " +++ query))
             queries.
Proof.
  revert acc; induction queries as [|[breakpoint query] queries IH]; intros acc;
    cbn [fold_left map].
  - now rewrite app_nil_r.
  - rewrite IH. now rewrite <- app_assoc.
Qed.

Lemma toRuleSets_flat (this : Breakpoints) (q : MediaQueries) :
  _mediaQueries this = Some q ->
  toRuleSets RuleSet createClassName createRuleSet this
  = Return (ruleSetsOf createClassName createRuleSet q).
Proof.
  intros Hq. unfold toRuleSets, ruleSetsOf. rewrite Hq. f_equal.
  cbn [Object_entries fold_left flat_map].
  rewrite !forEach_push. cbn [app]. now rewrite app_nil_r, <- !app_assoc.
Qed.

Lemma ruleSetsOf_length (q : MediaQueries) :
  List.length (ruleSetsOf createClassName createRuleSet q) = queryCount q.
Proof.
  unfold ruleSetsOf, queryCount. cbn [Object_entries flat_map].
  rewrite !length_app, !length_map. cbn [List.length]. lia.
Qed.

End RuleExport.

Section Enumeration.

Variable propKey : MediaBreakpointProps -> option MediaBreakpointKey.
Variable this : Breakpoints.
Variable key : MediaBreakpointKey.

(** Every entry of a map that [_createBreakpointQueries] returns holds the
    compiled query of an operand of the list under that operand's key. *)
Lemma createQueries_entry (l : list (operand key)) (m : Map)
  (breakpoint query : string) :
  _createBreakpointQueries propKey this key l = Return m ->
  In (breakpoint, query) m ->
  exists b : operand key,
    In b l /\
    breakpoint = breakpointKey (as_union key b) /\
    _createBreakpointQuery propKey this (singleProp key b) = Return query.
Proof.
  intros Hm Hin. apply createQueries_Return in Hm as [Hall ->].
  apply fill_entry in Hin as [[]|(b & Hb & Heq)].
  injection Heq as -> ->. exists b. repeat split; [exact Hb|].
  rewrite Forall_forall in Hall. destruct (Hall b Hb) as [query Hquery].
  unfold queryText. now rewrite Hquery.
Qed.

(** With no two operands of one key the map lists the operands in order. *)
Lemma createQueries_keys (l : list (operand key)) (m : Map) :
  _createBreakpointQueries propKey this key l = Return m ->
  NoDup (map (fun b => breakpointKey (as_union key b)) l) ->
  Map_keys m = map (fun b => breakpointKey (as_union key b)) l.
Proof.
  intros Hm Hnd. apply createQueries_Return in Hm as [_ ->].
  unfold queriesOf.
  rewrite (fill_distinct (fun b => breakpointKey (as_union key b))
             (fun b => queryText propKey this (singleProp key b)) l [] Hnd).
  unfold Map_keys. cbn [app]. now rewrite map_map.
Qed.



End Enumeration.

(** C6. On the registry of any breakpoint set, [toRuleSets] returns one rule
    set for every entry of the five maps of compiled queries, in the order
    of the maps and no more than these; each is built from a class name and
    the body ["not all and " + query], where [query] is the compiled
    condition string of the directive of that entry. *)
Theorem toRuleSets_negates_each_query
  (propKey : MediaBreakpointProps -> option MediaBreakpointKey)
  (RuleSet : Type)
  (createClassName : string -> string -> string)
  (createRuleSet : string -> string -> RuleSet)
  (o : object) (this : Breakpoints) :
  constructor propKey o = Return this ->
  exists q,
    _mediaQueries this = Some q /\
    toRuleSets RuleSet createClassName createRuleSet this
    = Return
        (flat_map
           (fun '(type, queries) =>
              map (fun '(breakpoint, query) =>
                     createRuleSet (createClassName (key_name type) breakpoint)
                       ("not all and " +++ query))
                queries)
           (Object_entries q)) /\
    (forall rules,
        toRuleSets RuleSet createClassName createRuleSet this = Return rules ->
        List.length rules = queryCount q) /\
    (forall type queries breakpoint query,
        In (type, queries) (Object_entries q) ->
        In (breakpoint, query) queries ->
        exists b : operand type,
          breakpoint = breakpointKey (as_union type b) /\
          _createBreakpointQuery propKey this (singleProp type b)
          = Return query).
Proof.
  intros Hthis.
  destruct (constructor_Return propKey o this Hthis)
    as (q & -> & H1 & H2 & H3 & H4 & H5).
  exists q. split; [reflexivity|]. split; [|split].
  - now apply toRuleSets_flat.
  - intros rules. rewrite (toRuleSets_flat createClassName createRuleSet
                             (mkBreakpoints (sortBreakpoints o) o (Some q)) q eq_refl).
    intros H; injection H as <-. apply ruleSetsOf_length.
  - intros type queries breakpoint query Hentry Hin.
    cbn [Object_entries In] in Hentry.
    destruct Hentry as [E|[E|[E|[E|[E|[]]]]]]; injection E as <- <-;
      [ destruct (createQueries_entry propKey _ K_at _ _ _ _ H1 Hin)
          as (b & _ & Hk & Hq)
      | destruct (createQueries_entry propKey _ K_lessThan _ _ _ _ H2 Hin)
          as (b & _ & Hk & Hq)
      | destruct (createQueries_entry propKey _ K_greaterThan _ _ _ _ H3 Hin)
          as (b & _ & Hk & Hq)
      | destruct (createQueries_entry propKey _ K_greaterThanOrEqual _ _ _ _ H4 Hin)
          as (b & _ & Hk & Hq)
      | destruct (createQueries_entry propKey _ K_between _ _ _ _ H5 Hin)
          as (b & _ & Hk & Hq) ];
      exists b; split; assumption.
Qed.

Lemma toRuleSets_negates_each_query_witness :
  constructor propKey_first smMdLg = Return smMdLgRegistry /\
  exists rules,
    toRuleSets (string * string) (fun type breakpoint => type +++ "-" +++ breakpoint)
      pair smMdLgRegistry = Return rules /\
    List.length rules = 13%nat /\
    nth_error rules 3
    = Some ("lessThan-md", "not all and (max-width:767px)")%string.
Proof.
  split; [exact smMdLg_constructed|].
  destruct (toRuleSets_negates_each_query propKey_first (string * string)
              (fun type breakpoint => type +++ "-" +++ breakpoint) pair
              smMdLg smMdLgRegistry smMdLg_constructed)
    as (q & Hq & Hrules & Hlength & _).
  injection Hq as <-.
  eexists. split; [exact Hrules|]. split; reflexivity.
Defined.







(** C9, as stated, fails: the directive value [{at: "sm", lessThan: "md"}]
    has two kinds, and compilation returns the query of [at("sm")]. *)
Lemma two_kinds_compile :
  constructor propKey_first smMdLg = Return smMdLgRegistry /\
  _createBreakpointQuery propKey_first smMdLgRegistry
    (mkProps (Some "sm"%string) (Some "md"%string) None None None)
  = Return "(min-width:0px) and (max-width:767px)"%string.
Proof. split; [vm_compute; reflexivity|reflexivity]. Qed.

(** C9, amended. Compilation of the empty directive value [{}], on which
    [propKey] names no kind, throws the error that holds the value
    (["Unexpected breakpoint props: {}"]). A directive value with several
    kinds, one of them [at] with a non-empty name, is normalized to the one
    kind that [at] stands for: it compiles to what [at(b)] alone compiles
    to, the other kinds are dropped, and a query string is returned. *)
Theorem directive_shape
  (propKey : MediaBreakpointProps -> option MediaBreakpointKey)
  (o : object) (this : Breakpoints) :
  propKey_single propKey ->
  propKey_none propKey ->
  constructor propKey o = Return this ->
  _createBreakpointQuery propKey this noProps
  = Throw (UnexpectedBreakpointProps noProps) /\
  (forall props b,
      at_ props = Some b ->
      b <> ""%string ->
      _normalizeProps this props = _normalizeProps this (singleProp K_at b) /\
      _createBreakpointQuery propKey this props
      = _createBreakpointQuery propKey this (singleProp K_at b) /\
      exists query, _createBreakpointQuery propKey this props = Return query).
Proof.
  intros Hone Hnone Hthis. split.
  - unfold _createBreakpointQuery.
    rewrite normalize_without_at by reflexivity. now rewrite Hnone.
  - intros props b Hat Hb.
    assert (Hnorm : _normalizeProps this props
                    = _normalizeProps this (singleProp K_at b)).
    { unfold _normalizeProps. rewrite Hat. cbn [singleProp at_].
      rewrite (proj2 (truthy_Some b) Hb). reflexivity. }
    assert (Hsame : _createBreakpointQuery propKey this props
                    = _createBreakpointQuery propKey this (singleProp K_at b)).
    { unfold _createBreakpointQuery. now rewrite Hnorm. }
    split; [exact Hnorm|]. split; [exact Hsame|].
    rewrite Hsame. now apply at_compiles.
Qed.

Lemma directive_shape_witness :
  propKey_single propKey_first /\
  propKey_none propKey_first /\
  constructor propKey_first smMdLg = Return smMdLgRegistry /\
  _createBreakpointQuery propKey_first smMdLgRegistry noProps
  = Throw (UnexpectedBreakpointProps noProps) /\
  _createBreakpointQuery propKey_first smMdLgRegistry
    (mkProps (Some "sm"%string) (Some "md"%string) None None None)
  = _createBreakpointQuery propKey_first smMdLgRegistry
      (singleProp K_at "sm"%string).
Proof.
  split; [exact propKey_first_single|].
  split; [exact propKey_first_none|].
  split; [exact smMdLg_constructed|].
  destruct (directive_shape propKey_first smMdLg smMdLgRegistry
              propKey_first_single propKey_first_none smMdLg_constructed)
    as (Hnone & Hat).
  split; [exact Hnone|].
  refine (proj1 (proj2 (Hat (mkProps (Some "sm"%string) (Some "md"%string)
                                None None None)
                          "sm"%string eq_refl _))).
  discriminate.
Defined.

(** ** Further properties of the class *)

Lemma append_assoc (s1 s2 s3 : string) :
  (s1 +++ s2) +++ s3 = s1 +++ s2 +++ s3.
Proof. induction s1 as [|c s1 IH]; cbn; [reflexivity|now rewrite IH]. Qed.

(** X9. [_normalizeProps] leaves a directive value without a non-empty [at]
    as it is, returns a value without [at] otherwise, and normalizing twice
    is normalizing once. *)
Theorem normalizeProps_idempotent (this : Breakpoints)
  (props : MediaBreakpointProps) :
  (truthy (at_ props) = false -> _normalizeProps this props = props) /\
  (truthy (at_ props) = true ->
   at_ (_normalizeProps this props) = None /\
   lessThan (_normalizeProps this props) = None /\
   greaterThan (_normalizeProps this props) = None) /\
  _normalizeProps this (_normalizeProps this props) = _normalizeProps this props.
Proof.
  split; [apply normalize_without_at|]. split; [|apply normalize_idempotent].
  intros Ht. split; [now apply normalize_drops_at|].
  unfold _normalizeProps. destruct (at_ props) as [b|]; [|discriminate].
  rewrite Ht.
  destruct (Array_get _ _) as [to|]; [destruct (truthy (Some to))|];
    now split.
Qed.

Lemma normalizeProps_idempotent_witness :
  truthy (at_ (mkProps (Some "sm") (Some "md") None None None)%string) = true /\
  lessThan (_normalizeProps smMdLgRegistry
              (mkProps (Some "sm") (Some "md") None None None)%string) = None.
Proof.
  split; [reflexivity|].
  exact (proj1 (proj2 (proj1 (proj2
    (normalizeProps_idempotent smMdLgRegistry
       (mkProps (Some "sm") (Some "md") None None None)%string)) eq_refl))).
Defined.

(** X10. On every directive value the two consumers agree on what is
    acceptable: [_createBreakpointQuery] returns a query string exactly when
    [shouldRenderMediaQuery] returns a boolean; where compilation throws
    ["Unexpected breakpoint props"], [shouldRenderMediaQuery] throws nothing
    and returns [undefined]; every other exception is thrown by both. *)
Theorem compilation_and_admission_agree
  (propKey : MediaBreakpointProps -> option MediaBreakpointKey)
  (this : Breakpoints) (props : MediaBreakpointProps)
  (onlyRenderAt : list string) :
  ((exists query, _createBreakpointQuery propKey this props = Return query) <->
   (exists decision,
       shouldRenderMediaQuery propKey this props onlyRenderAt
       = Return (Some decision))) /\
  (_createBreakpointQuery propKey this props
   = Throw (UnexpectedBreakpointProps (_normalizeProps this props)) <->
   shouldRenderMediaQuery propKey this props onlyRenderAt = Return None) /\
  (forall e,
      shouldRenderMediaQuery propKey this props onlyRenderAt = Throw e <->
      _createBreakpointQuery propKey this props = Throw e /\
      e <> UnexpectedBreakpointProps (_normalizeProps this props)).
Proof.
  assert (Hfind : forall b e,
             _findNextBreakpoint this b = Throw e -> exists m, e = Error m).
  { intros b e. unfold _findNextBreakpoint.
    destruct (Array_get _ _) as [n|]; [destruct (truthy (Some n))|];
      intros H; try discriminate; injection H as <-; now eexists. }
  unfold _createBreakpointQuery, shouldRenderMediaQuery.
  set (normalized := _normalizeProps this props).
  destruct (propKey normalized) as [[]|];
    try (destruct (_findNextBreakpoint this (greaterThan normalized))
           as [next|e'] eqn:Hnext; [|apply Hfind in Hnext as [m ->]]);
    try destruct (between normalized) as [[b0 b1]|]; cbn [bind];
    repeat split; intros;
    repeat match goal with
      | H : exists _, _ |- _ => destruct H
      | H : _ /\ _ |- _ => destruct H
      end;
    try discriminate; try congruence; try (eexists; reflexivity).
Qed.

Lemma compilation_and_admission_agree_witness :
  _createBreakpointQuery propKey_first smMdLgRegistry
    (singleProp K_at ""%string)
  = Throw (UnexpectedBreakpointProps
             (_normalizeProps smMdLgRegistry (singleProp K_at ""%string))) /\
  shouldRenderMediaQuery propKey_first smMdLgRegistry
    (singleProp K_at ""%string) ["sm"%string]
  = Return None.
Proof.
  split; [reflexivity|].
  exact (proj1 (proj1 (proj2
    (compilation_and_admission_agree propKey_first smMdLgRegistry
       (singleProp K_at ""%string) ["sm"%string]))) eq_refl).
Defined.

(** X5. [greaterThan(b)] is [greaterThanOrEqual] of the breakpoint that
    [_findNextBreakpoint] gives for [b]: the two compile to the same string
    and are admitted for the same lists; where [_findNextBreakpoint] throws,
    compilation and admission of [greaterThan(b)] throw that exception. *)
Theorem greaterThan_is_greaterThanOrEqual_next
  (propKey : MediaBreakpointProps -> option MediaBreakpointKey)
  (this : Breakpoints) (b : string) :
  propKey_single propKey ->
  (forall next,
      _findNextBreakpoint this (Some b) = Return next ->
      _createBreakpointQuery propKey this (singleProp K_greaterThan b)
      = _createBreakpointQuery propKey this (singleProp K_greaterThanOrEqual next) /\
      forall onlyRenderAt,
        shouldRenderMediaQuery propKey this (singleProp K_greaterThan b)
          onlyRenderAt
        = shouldRenderMediaQuery propKey this
            (singleProp K_greaterThanOrEqual next) onlyRenderAt) /\
  (forall e,
      _findNextBreakpoint this (Some b) = Throw e ->
      _createBreakpointQuery propKey this (singleProp K_greaterThan b) = Throw e /\
      forall onlyRenderAt,
        shouldRenderMediaQuery propKey this (singleProp K_greaterThan b)
          onlyRenderAt
        = Throw e).
Proof.
  intros Hone. split.
  - intros next Hnext. split; [|intros onlyRenderAt].
    + rewrite (compile_greaterThan propKey Hone), Hnext.
      now rewrite (compile_greaterThanOrEqual propKey Hone).
    + rewrite (admit_greaterThan propKey Hone), Hnext.
      now rewrite (admit_greaterThanOrEqual propKey Hone).
  - intros e He. split; [|intros onlyRenderAt].
    + now rewrite (compile_greaterThan propKey Hone), He.
    + now rewrite (admit_greaterThan propKey Hone), He.
Qed.

Lemma greaterThan_is_greaterThanOrEqual_next_witness :
  propKey_single propKey_first /\
  _findNextBreakpoint smMdLgRegistry (Some "sm"%string) = Return "md"%string /\
  _createBreakpointQuery propKey_first smMdLgRegistry
    (singleProp K_greaterThan "sm"%string)
  = _createBreakpointQuery propKey_first smMdLgRegistry
      (singleProp K_greaterThanOrEqual "md"%string).
Proof.
  split; [exact propKey_first_single|]. split; [reflexivity|].
  exact (proj1 (proj1 (greaterThan_is_greaterThanOrEqual_next propKey_first
                         smMdLgRegistry "sm"%string propKey_first_single)
                 "md"%string eq_refl)).
Defined.

(** [Math.min] and [Math.max] of the widths of known names are numbers. *)
Lemma Math_min_known (o : object) (names : list string) :
  Forall (fun a => In a (Object_keys o)) names ->
  (names = [] /\
   Math_min (map (fun a => Object_get o a) names) = Number Infinity) \/
  exists w ws,
    widthsOf o names (w :: ws) /\
    Math_min (map (fun a => Object_get o a) names) = Number (Num (minimum w ws)).
Proof.
  intros Hknown. destruct names as [|a names]; [now left|right].
  destruct (known_widths o _ Hknown) as [ws0 Hws].
  assert (Hne : a :: names <> []) by discriminate.
  destruct (widthsOf_nonempty o _ ws0 Hne Hws) as (w & ws & ->).
  exists w, ws. split; [exact Hws|now apply Math_min_widths].
Qed.

Lemma Math_max_known (o : object) (names : list string) :
  Forall (fun a => In a (Object_keys o)) names ->
  (names = [] /\
   Math_max (map (fun a => Object_get o a) names) = Number NegInfinity) \/
  exists w ws,
    widthsOf o names (w :: ws) /\
    Math_max (map (fun a => Object_get o a) names) = Number (Num (maximum w ws)).
Proof.
  intros Hknown. destruct names as [|a names]; [now left|right].
  destruct (known_widths o _ Hknown) as [ws0 Hws].
  assert (Hne : a :: names <> []) by discriminate.
  destruct (widthsOf_nonempty o _ ws0 Hne Hws) as (w & ws & ->).
  exists w, ws. split; [exact Hws|now apply Math_max_widths].
Qed.

(** X6. [between(b1, b2)] is the conjunction of [greaterThanOrEqual(b1)] and
    [lessThan(b2)]: its compiled string is the two compiled strings joined
    by [" and "], for all names; and for operands and render names that are
    in the set, it is admitted exactly when both are. *)
Theorem between_is_conjunction
  (propKey : MediaBreakpointProps -> option MediaBreakpointKey)
  (this : Breakpoints) (b1 b2 : string) :
  propKey_single propKey ->
  (exists q1 q2,
      _createBreakpointQuery propKey this (singleProp K_greaterThanOrEqual b1)
      = Return q1 /\
      _createBreakpointQuery propKey this (singleProp K_lessThan b2)
      = Return q2 /\
      _createBreakpointQuery propKey this (singleProp K_between (b1, b2))
      = Return (q1 +++ " and " +++ q2)) /\
  (forall onlyRenderAt,
      In b1 (Object_keys (_breakpoints this)) ->
      In b2 (Object_keys (_breakpoints this)) ->
      Forall (fun a => In a (Object_keys (_breakpoints this))) onlyRenderAt ->
      exists d1 d2,
        shouldRenderMediaQuery propKey this
          (singleProp K_greaterThanOrEqual b1) onlyRenderAt
        = Return (Some d1) /\
        shouldRenderMediaQuery propKey this (singleProp K_lessThan b2)
          onlyRenderAt
        = Return (Some d2) /\
        shouldRenderMediaQuery propKey this (singleProp K_between (b1, b2))
          onlyRenderAt
        = Return (Some (d1 && d2))).
Proof.
  intros Hone. split.
  - eexists _, _. split; [now apply compile_greaterThanOrEqual|].
    split; [now apply compile_lessThan|].
    rewrite (compile_between propKey Hone). f_equal.
    now rewrite append_assoc, append_assoc.
  - intros onlyRenderAt H1 H2 Hknown.
    rewrite (admit_greaterThanOrEqual propKey Hone),
      (admit_lessThan propKey Hone), (admit_between propKey Hone).
    eexists _, _. split; [reflexivity|]. split; [reflexivity|].
    destruct (Object_get_present _ b1 H1) as [w1 ->].
    destruct (Object_get_present _ b2 H2) as [w2 ->].
    destruct (Math_min_known _ _ Hknown) as [[-> ->]|(w & ws & Hws & ->)];
      [reflexivity|].
    destruct (Math_max_known _ _ Hknown) as [[Hnil _]|(w' & ws' & _ & ->)].
    + rewrite Hnil in Hws. discriminate Hws.
    + rewrite !ge_Num, !lt_Num, !Z.geb_leb.
      destruct (Z.ltb_spec (maximum w' ws') w1), (Z.leb_spec w1 (maximum w' ws')),
        (Z.ltb_spec (minimum w ws) w2), (Z.leb_spec w2 (minimum w ws));
        cbn; try reflexivity; lia.
Qed.

Lemma between_is_conjunction_witness :
  propKey_single propKey_first /\
  exists q1 q2,
    _createBreakpointQuery propKey_first smMdLgRegistry
      (singleProp K_greaterThanOrEqual "sm"%string) = Return q1 /\
    _createBreakpointQuery propKey_first smMdLgRegistry
      (singleProp K_lessThan "lg"%string) = Return q2 /\
    _createBreakpointQuery propKey_first smMdLgRegistry
      (singleProp K_between ("sm", "lg")%string)
    = Return (q1 +++ " and " +++ q2).
Proof.
  split; [exact propKey_first_single|].
  exact (proj1 (between_is_conjunction propKey_first smMdLgRegistry
                  "sm"%string "lg"%string propKey_first_single)).
Defined.

(** ** The render list *)

Section RenderList.

Lemma number_min_swap (a x y : number) :
  number_min (number_min a x) y = number_min (number_min a y) x.
Proof.
  destruct a as [a| | |], x as [x| | |], y as [y| | |];
    unfold number_min; cbn [is_NaN orb number_lt];
    repeat match goal with
      | |- context [?p <? ?q] =>
          destruct (Z.ltb_spec p q); cbn [is_NaN orb number_lt]
      end;
    try reflexivity; try (f_equal; lia).
Qed.

Lemma number_max_swap (a x y : number) :
  number_max (number_max a x) y = number_max (number_max a y) x.
Proof.
  destruct a as [a| | |], x as [x| | |], y as [y| | |];
    unfold number_max; cbn [is_NaN orb number_lt];
    repeat match goal with
      | |- context [?p <? ?q] =>
          destruct (Z.ltb_spec p q); cbn [is_NaN orb number_lt]
      end;
    try reflexivity; try (f_equal; lia).
Qed.

Lemma fold_swap_perm (f : number -> number -> number) (l l' : list number) :
  (forall a x y, f (f a x) y = f (f a y) x) ->
  Permutation l l' -> forall acc, fold_left f l acc = fold_left f l' acc.
Proof.
  intros Hswap. induction 1 as [|x l l' _ IH|x y l|l l' l'' _ IH1 _ IH2];
    intros acc; cbn [fold_left].
  - reflexivity.
  - apply IH.
  - now rewrite Hswap.
  - now rewrite IH1.
Qed.

Lemma Math_min_perm (vs vs' : list value) :
  Permutation vs vs' -> Math_min vs = Math_min vs'.
Proof.
  intros H. unfold Math_min. f_equal.
  apply fold_swap_perm; [apply number_min_swap|now apply Permutation_map].
Qed.

Lemma Math_max_perm (vs vs' : list value) :
  Permutation vs vs' -> Math_max vs = Math_max vs'.
Proof.
  intros H. unfold Math_max. f_equal.
  apply fold_swap_perm; [apply number_max_swap|now apply Permutation_map].
Qed.

Lemma fold_min_le (ws : list Z) (w : Z) : fold_left Z.min ws w <= w.
Proof.
  revert w; induction ws as [|x ws IH]; intros w; cbn [fold_left]; [lia|].
  specialize (IH (Z.min w x)). lia.
Qed.

Lemma fold_max_ge (ws : list Z) (w : Z) : w <= fold_left Z.max ws w.
Proof.
  revert w; induction ws as [|x ws IH]; intros w; cbn [fold_left]; [lia|].
  specialize (IH (Z.max w x)). lia.
Qed.

(** Names added to a non-empty list of known names lower the least width
    and raise the greatest. *)
Lemma Math_min_max_app (o : object) (names more : list string) :
  names <> [] ->
  Forall (fun a => In a (Object_keys o)) names ->
  Forall (fun a => In a (Object_keys o)) more ->
  exists m M m' M',
    Math_min (map (fun a => Object_get o a) names) = Number (Num m) /\
    Math_max (map (fun a => Object_get o a) names) = Number (Num M) /\
    Math_min (map (fun a => Object_get o a) (names ++ more)) = Number (Num m') /\
    Math_max (map (fun a => Object_get o a) (names ++ more)) = Number (Num M') /\
    m' <= m /\ M <= M'.
Proof.
  intros Hne Hnames Hmore.
  destruct (known_widths o names Hnames) as [ws0 Hws].
  destruct (widthsOf_nonempty o names ws0 Hne Hws) as (w & ws & ->).
  destruct (known_widths o more Hmore) as [ws' Hws'].
  assert (Happ : widthsOf o (names ++ more) (w :: ws ++ ws')).
  { unfold widthsOf in *. change (w :: ws ++ ws') with ((w :: ws) ++ ws').
    now rewrite !map_app, Hws, Hws'. }
  exists (minimum w ws), (maximum w ws),
    (minimum w (ws ++ ws')), (maximum w (ws ++ ws')).
  rewrite (Math_min_widths o names w ws Hws), (Math_max_widths o names w ws Hws).
  rewrite (Math_min_widths o _ w _ Happ), (Math_max_widths o _ w _ Happ).
  repeat split; unfold minimum, maximum; rewrite fold_left_app.
  - apply fold_min_le.
  - apply fold_max_ge.
Qed.

Lemma widthsOf_In (o : object) (names : list string) (ws : list Z) (x : Z) :
  widthsOf o names ws ->
  In x ws <-> exists a, In a names /\ Object_get o a = Number (Num x).
Proof.
  unfold widthsOf. intros H. split.
  - intros Hx. apply (in_map (fun w => Number (Num w))) in Hx.
    rewrite <- H in Hx. apply in_map_iff in Hx as (a & Ha & Hin).
    now exists a.
  - intros (a & Hin & Ha). apply (in_map (Object_get o)) in Hin.
    rewrite H, Ha in Hin. apply in_map_iff in Hin as (y & Hy & Hin).
    now injection Hy as <-.
Qed.

Lemma Object_get_Num_In (o : object) (k : string) (w : Z) :
  Object_get o k = Number (Num w) -> In (k, w) o.
Proof.
  induction o as [|[k' w'] o IH]; cbn [Object_get]; [discriminate|].
  destruct (String.eqb_spec k' k) as [->|Hne].
  - intros H; injection H as ->. now left.
  - intros H. right. now apply IH.
Qed.

Lemma Object_get_cases (o : object) (k : string) :
  Object_get o k = undefined \/ exists w, Object_get o k = Number (Num w).
Proof.
  induction o as [|[k' w'] o IH]; cbn [Object_get]; [now left|].
  destruct (String.eqb k' k); [right; now exists w'|exact IH].
Qed.

Lemma lt_undefined (v : value) : lt v undefined = false.
Proof. now destruct v as [|[]]. Qed.

Lemma ge_undefined (v : value) : ge v undefined = false.
Proof. now destruct v as [|[]]. Qed.

End RenderList.

(** X8. [shouldRenderMediaQuery] does not depend on the order of
    [onlyRenderAt]: on a permutation of the list it returns the same
    result, for every directive value. *)
Theorem shouldRenderMediaQuery_order_of_list
  (propKey : MediaBreakpointProps -> option MediaBreakpointKey)
  (this : Breakpoints) (props : MediaBreakpointProps)
  (onlyRenderAt onlyRenderAt' : list string) :
  Permutation onlyRenderAt onlyRenderAt' ->
  shouldRenderMediaQuery propKey this props onlyRenderAt
  = shouldRenderMediaQuery propKey this props onlyRenderAt'.
Proof.
  intros Hperm.
  assert (Hmin := Math_min_perm _ _
    (Permutation_map (fun a => Object_get (_breakpoints this) a) Hperm)).
  assert (Hmax := Math_max_perm _ _
    (Permutation_map (fun a => Object_get (_breakpoints this) a) Hperm)).
  unfold shouldRenderMediaQuery.
  destruct (propKey (_normalizeProps this props)) as [[]|];
    try destruct (_findNextBreakpoint this _) as [next|e];
    try destruct (between (_normalizeProps this props)) as [[b0 b1]|];
    cbn [bind]; rewrite ?Hmin, ?Hmax; reflexivity.
Qed.

Lemma shouldRenderMediaQuery_order_of_list_witness :
  Permutation ["sm"; "lg"]%string ["lg"; "sm"]%string /\
  shouldRenderMediaQuery propKey_first smMdLgRegistry
    (singleProp K_at "md"%string) ["sm"; "lg"]%string
  = shouldRenderMediaQuery propKey_first smMdLgRegistry
      (singleProp K_at "md"%string) ["lg"; "sm"]%string.
Proof.
  split; [apply perm_swap|].
  exact (shouldRenderMediaQuery_order_of_list propKey_first smMdLgRegistry
           (singleProp K_at "md"%string) _ _ (perm_swap _ _ _)).
Defined.

(** X7. Admission grows with the render list: a directive value that
    [shouldRenderMediaQuery] admits for a list of names of the set is
    admitted for every longer list of names of the set. *)
Theorem shouldRenderMediaQuery_monotone
  (propKey : MediaBreakpointProps -> option MediaBreakpointKey)
  (this : Breakpoints) (props : MediaBreakpointProps)
  (onlyRenderAt more : list string) :
  Forall (fun a => In a (Object_keys (_breakpoints this))) onlyRenderAt ->
  Forall (fun a => In a (Object_keys (_breakpoints this))) more ->
  shouldRenderMediaQuery propKey this props onlyRenderAt = Return (Some true) ->
  shouldRenderMediaQuery propKey this props (onlyRenderAt ++ more)
  = Return (Some true).
Proof.
  intros Hknown Hmore.
  destruct onlyRenderAt as [|a0 rest] eqn:Hlist.
  - (* nothing is admitted for the empty list *)
    unfold shouldRenderMediaQuery.
    destruct (propKey (_normalizeProps this props)) as [[]|];
      try destruct (_findNextBreakpoint this _) as [next|e];
      try destruct (between (_normalizeProps this props)) as [[b0 b1]|];
      cbn [bind map]; try discriminate;
      repeat match goal with
        | |- context [Object_get ?o ?k] =>
            destruct (Object_get_cases o k) as [->|[? ->]]
        end; cbn; try discriminate.
    intros _. now rewrite lt_undefined, ge_undefined.
  - rewrite <- Hlist in *.
    assert (Hne : onlyRenderAt <> []) by (rewrite Hlist; discriminate).
    destruct (Math_min_max_app _ onlyRenderAt more Hne Hknown Hmore)
      as (m & M & m' & M' & Hm & HM & Hm' & HM' & Hle & Hge).
    unfold shouldRenderMediaQuery.
    destruct (propKey (_normalizeProps this props)) as [[]|];
      try destruct (_findNextBreakpoint this _) as [next|e];
      try destruct (between (_normalizeProps this props)) as [[b0 b1]|];
      cbn [bind]; try discriminate;
      rewrite ?Hm, ?HM, ?Hm', ?HM';
      repeat match goal with
        | |- context [Object_get ?o ?k] =>
            destruct (Object_get_cases o k) as [->|[? ->]]
        end;
      cbn; try discriminate; try reflexivity;
      repeat match goal with
        | |- context [?p <? ?q] => destruct (Z.ltb_spec p q)
        end;
      cbn; try discriminate; try reflexivity; lia.
Qed.

Lemma shouldRenderMediaQuery_monotone_witness :
  Forall (fun a => In a (Object_keys (_breakpoints smMdLgRegistry)))
    ["sm"%string] /\
  Forall (fun a => In a (Object_keys (_breakpoints smMdLgRegistry)))
    ["lg"%string] /\
  shouldRenderMediaQuery propKey_first smMdLgRegistry
    (singleProp K_lessThan "md"%string) ["sm"%string] = Return (Some true) /\
  shouldRenderMediaQuery propKey_first smMdLgRegistry
    (singleProp K_lessThan "md"%string) (["sm"%string] ++ ["lg"%string])
  = Return (Some true).
Proof.
  assert (H1 : Forall (fun a => In a (Object_keys (_breakpoints smMdLgRegistry)))
                 ["sm"%string]) by (repeat constructor; cbn; tauto).
  assert (H2 : Forall (fun a => In a (Object_keys (_breakpoints smMdLgRegistry)))
                 ["lg"%string]) by (repeat constructor; cbn; tauto).
  split; [exact H1|]. split; [exact H2|]. split; [reflexivity|].
  exact (shouldRenderMediaQuery_monotone propKey_first smMdLgRegistry
           (singleProp K_lessThan "md"%string) ["sm"%string] ["lg"%string]
           H1 H2 eq_refl).
Defined.

Section SomeRenderWidth.

Variable o : object.
Hypothesis o_keys : NoDup (Object_keys o).
Variable names : list string.
Hypothesis names_known : Forall (fun a => In a (Object_keys o)) names.

(** The least width of the list is below [w] iff some width of it is. *)
Lemma lt_min_exists (w : Z) :
  lt (Math_min (map (fun a => Object_get o a) names)) (Number (Num w)) = true <->
  exists a wa, In a names /\ In (a, wa) o /\ wa < w.
Proof.
  destruct (Math_min_known o names names_known)
    as [[-> ->]|(w0 & ws & Hws & ->)].
  - split; [discriminate|]. now intros (a & wa & [] & _).
  - rewrite lt_Num, Z.ltb_lt.
    destruct (minimum_least w0 ws) as [Hin Hall]. rewrite Forall_forall in Hall.
    split.
    + intros Hlt. apply (widthsOf_In o names _ _ Hws) in Hin as (a & Ha & Hget).
      exists a, (minimum w0 ws). repeat split; [exact Ha| |exact Hlt].
      now apply Object_get_Num_In.
    + intros (a & wa & Ha & Hin' & Hlt).
      assert (In wa (w0 :: ws)).
      { apply (widthsOf_In o names _ _ Hws). exists a. split; [exact Ha|].
        now apply Object_get_In. }
      specialize (Hall wa H). lia.
Qed.

(** The greatest width of the list is at least [w] iff some width of it
    is. *)
Lemma ge_max_exists (w : Z) :
  ge (Math_max (map (fun a => Object_get o a) names)) (Number (Num w)) = true <->
  exists a wa, In a names /\ In (a, wa) o /\ w <= wa.
Proof.
  destruct (Math_max_known o names names_known)
    as [[-> ->]|(w0 & ws & Hws & ->)].
  - split; [discriminate|]. now intros (a & wa & [] & _).
  - rewrite ge_Num, Z.geb_le.
    destruct (maximum_greatest w0 ws) as [Hin Hall]. rewrite Forall_forall in Hall.
    split.
    + intros Hle. apply (widthsOf_In o names _ _ Hws) in Hin as (a & Ha & Hget).
      exists a, (maximum w0 ws). repeat split; [exact Ha| |exact Hle].
      now apply Object_get_Num_In.
    + intros (a & wa & Ha & Hin' & Hle).
      assert (In wa (w0 :: ws)).
      { apply (widthsOf_In o names _ _ Hws). exists a. split; [exact Ha|].
        now apply Object_get_In. }
      specialize (Hall wa H). lia.
Qed.

Lemma lt_max_ge (w : Z) :
  lt (Math_max (map (fun a => Object_get o a) names)) (Number (Num w))
  = negb (ge (Math_max (map (fun a => Object_get o a) names)) (Number (Num w))).
Proof.
  destruct (Math_max_known o names names_known)
    as [[-> ->]|(w0 & ws & Hws & ->)]; [reflexivity|].
  rewrite ge_Num, lt_Num, Z.geb_leb.
  destruct (Z.ltb_spec (maximum w0 ws) w), (Z.leb_spec w (maximum w0 ws));
    cbn; try reflexivity; lia.
Qed.

Lemma ge_min_lt (w : Z) :
  ge (Math_min (map (fun a => Object_get o a) names)) (Number (Num w))
  = negb (lt (Math_min (map (fun a => Object_get o a) names)) (Number (Num w))).
Proof.
  destruct (Math_min_known o names names_known)
    as [[-> ->]|(w0 & ws & Hws & ->)]; [reflexivity|].
  rewrite ge_Num, lt_Num, Z.geb_leb.
  destruct (Z.ltb_spec (minimum w0 ws) w), (Z.leb_spec w (minimum w0 ws));
    cbn; try reflexivity; lia.
Qed.

End SomeRenderWidth.

(** X12. For a render list of names of the set, admission is decided by
    single render widths: [lessThan(b)] is admitted iff some render width is
    below [width(b)]; [greaterThanOrEqual(b)] iff some render width is at
    least [width(b)]; [greaterThan(b)] iff some render width is at least the
    width of the next breakpoint; [between(b1, b2)] iff some render width is
    at least [width(b1)] and some, maybe another, is below [width(b2)]. So a
    [between] directive with a render width inside [[width(b1), width(b2))]
    is always admitted. *)
Theorem admission_by_render_widths
  (propKey : MediaBreakpointProps -> option MediaBreakpointKey)
  (this : Breakpoints) (onlyRenderAt : list string) :
  propKey_single propKey ->
  NoDup (Object_keys (_breakpoints this)) ->
  Forall (fun a => In a (Object_keys (_breakpoints this))) onlyRenderAt ->
  (forall b w,
      In (b, w) (_breakpoints this) ->
      shouldRenderMediaQuery propKey this (singleProp K_lessThan b) onlyRenderAt
      = Return (Some true) <->
      exists a wa,
        In a onlyRenderAt /\ In (a, wa) (_breakpoints this) /\ wa < w) /\
  (forall b w,
      In (b, w) (_breakpoints this) ->
      shouldRenderMediaQuery propKey this (singleProp K_greaterThanOrEqual b)
        onlyRenderAt
      = Return (Some true) <->
      exists a wa,
        In a onlyRenderAt /\ In (a, wa) (_breakpoints this) /\ w <= wa) /\
  (forall b next w,
      _findNextBreakpoint this (Some b) = Return next ->
      In (next, w) (_breakpoints this) ->
      shouldRenderMediaQuery propKey this (singleProp K_greaterThan b)
        onlyRenderAt
      = Return (Some true) <->
      exists a wa,
        In a onlyRenderAt /\ In (a, wa) (_breakpoints this) /\ w <= wa) /\
  (forall b1 w1 b2 w2,
      In (b1, w1) (_breakpoints this) ->
      In (b2, w2) (_breakpoints this) ->
      (shouldRenderMediaQuery propKey this (singleProp K_between (b1, b2))
         onlyRenderAt
       = Return (Some true) <->
       (exists a wa,
           In a onlyRenderAt /\ In (a, wa) (_breakpoints this) /\ w1 <= wa) /\
       (exists a wa,
           In a onlyRenderAt /\ In (a, wa) (_breakpoints this) /\ wa < w2)) /\
      ((exists a wa,
           In a onlyRenderAt /\ In (a, wa) (_breakpoints this) /\
           w1 <= wa < w2) ->
       shouldRenderMediaQuery propKey this (singleProp K_between (b1, b2))
         onlyRenderAt
       = Return (Some true))).
Proof.
  intros Hone Hkeys Hknown.
  assert (Hbool : forall c : bool,
             @Return (option bool) (Some c) = Return (Some true) <-> c = true).
  { intros c. split; [intros H; now injection H|now intros ->]. }
  assert (Hbetween : forall b1 w1 b2 w2,
      In (b1, w1) (_breakpoints this) ->
      In (b2, w2) (_breakpoints this) ->
      shouldRenderMediaQuery propKey this (singleProp K_between (b1, b2))
        onlyRenderAt
      = Return (Some true) <->
      (exists a wa,
          In a onlyRenderAt /\ In (a, wa) (_breakpoints this) /\ w1 <= wa) /\
      (exists a wa,
          In a onlyRenderAt /\ In (a, wa) (_breakpoints this) /\ wa < w2)).
  { intros b1 w1 b2 w2 H1 H2.
    rewrite (admit_between propKey Hone), Hbool.
    rewrite (Object_get_In _ b1 w1 Hkeys H1), (Object_get_In _ b2 w2 Hkeys H2).
    rewrite (lt_max_ge _ _ Hknown), (ge_min_lt _ _ Hknown).
    rewrite <- (ge_max_exists _ Hkeys _ Hknown), <- (lt_min_exists _ Hkeys _ Hknown).
    destruct (ge _ _), (lt _ _); cbn; intuition discriminate. }
  split; [|split; [|split]].
  - intros b w Hb. rewrite (admit_lessThan propKey Hone), Hbool.
    rewrite (Object_get_In _ b w Hkeys Hb). now apply lt_min_exists.
  - intros b w Hb. rewrite (admit_greaterThanOrEqual propKey Hone), Hbool.
    rewrite (Object_get_In _ b w Hkeys Hb). now apply ge_max_exists.
  - intros b next w Hnext Hw.
    rewrite (admit_greaterThan propKey Hone), Hnext. cbn [bind].
    rewrite Hbool, (Object_get_In _ next w Hkeys Hw). now apply ge_max_exists.
  - intros b1 w1 b2 w2 H1 H2. split; [now apply Hbetween|].
    intros (a & wa & Ha & Hin & Hlo & Hhi).
    apply (Hbetween b1 w1 b2 w2 H1 H2).
    split; exists a, wa; repeat split; assumption.
Qed.

Lemma admission_by_render_widths_witness :
  propKey_single propKey_first /\
  NoDup (Object_keys (_breakpoints smMdLgRegistry)) /\
  Forall (fun a => In a (Object_keys (_breakpoints smMdLgRegistry)))
    ["sm"; "lg"]%string /\
  shouldRenderMediaQuery propKey_first smMdLgRegistry
    (singleProp K_between ("md", "lg")%string) ["sm"; "lg"]%string
  = Return (Some true).
Proof.
  assert (Hknown : Forall (fun a => In a (Object_keys (_breakpoints smMdLgRegistry)))
                     ["sm"; "lg"]%string) by (repeat constructor; cbn; tauto).
  split; [exact propKey_first_single|]. split; [exact smMdLg_keys|].
  split; [exact Hknown|].
  destruct (admission_by_render_widths propKey_first smMdLgRegistry
              ["sm"; "lg"]%string propKey_first_single smMdLg_keys Hknown)
    as (_ & _ & _ & Hbetween).
  apply (proj1 (Hbetween "md" 768 "lg" 1024
                  ltac:(cbn; tauto) ltac:(cbn; tauto))%string).
  split.
  - exists "lg"%string, 1024. cbn. repeat split; try tauto; lia.
  - exists "sm"%string, 0. cbn. repeat split; try tauto; lia.
Defined.

(** ** Neighbours in the sorted sequence *)

Section Neighbours.

Lemma StronglySorted_app_inv {A : Type} (R : A -> A -> Prop) (l1 l2 : list A) :
  StronglySorted R (l1 ++ l2) ->
  StronglySorted R l1 /\ StronglySorted R l2 /\
  forall x y, In x l1 -> In y l2 -> R x y.
Proof.
  induction l1 as [|a l1 IH]; cbn [app]; intros H.
  - repeat split; [constructor|exact H|easy].
  - apply StronglySorted_inv in H as [Hs Hall].
    destruct (IH Hs) as (H1 & H2 & H12).
    rewrite Forall_forall in Hall.
    repeat split.
    + constructor; [exact H1|]. apply Forall_forall. intros x Hx.
      apply Hall, in_or_app. now left.
    + exact H2.
    + intros x y [<-|Hx] Hy; [|now apply H12].
      apply Hall, in_or_app. now right.
Qed.

Variable o : object.
Hypothesis o_keys : NoDup (Object_keys o).

Lemma width_of_name (k : string) (w w' : Z) :
  In (k, w) o -> In (k, w') o -> w = w'.
Proof.
  intros H H'. apply (Object_get_In o k w o_keys) in H.
  apply (Object_get_In o k w' o_keys) in H'. congruence.
Qed.

Lemma name_of_width (a b : string) (w : Z) :
  NoDup (map snd o) -> In (a, w) o -> In (b, w) o -> a = b.
Proof.
  clear o_keys. induction o as [|[k v] o' IH]; [easy|].
  cbn [map snd]. intros Hnd Ha Hb.
  inversion Hnd as [|? ? Hnotin Hnd']; subst.
  destruct Ha as [Ha|Ha], Hb as [Hb|Hb].
  - congruence.
  - injection Ha as -> ->. exfalso. apply Hnotin.
    now apply (in_map snd) in Hb.
  - injection Hb as -> ->. exfalso. apply Hnotin.
    now apply (in_map snd) in Ha.
  - now apply IH.
Qed.

(** Around a name of the sorted sequence: the names before it are not
    wider, the names after it not narrower. *)
Lemma sorted_around (pre post : list string) (b : string) (wb : Z) :
  sortBreakpoints o = pre ++ b :: post ->
  In (b, wb) o ->
  (forall c wc, In c pre -> In (c, wc) o -> wc <= wb) /\
  (forall c wc, In c post -> In (c, wc) o -> wb <= wc).
Proof.
  intros Hs Hb. rewrite (sortBreakpoints_keys o o_keys) in Hs.
  unfold Object_keys in Hs.
  apply map_eq_app in Hs as (S1 & S2' & HS & Hpre & Hrest).
  destruct S2' as [|[b' wb'] S2]; [discriminate|].
  cbn [map fst] in Hrest. injection Hrest as -> Hpost.
  assert (Hin : forall p, In p (sortByWidth o) -> In p o)
    by (intros p; apply Permutation_in, sortByWidth_perm).
  assert (wb' = wb).
  { apply (width_of_name b); [|exact Hb]. apply Hin. rewrite HS.
    apply in_or_app; right; now left. }
  subst wb'.
  assert (Hsorted := sortByWidth_sorted o). rewrite HS in Hsorted.
  apply StronglySorted_app_inv in Hsorted as (_ & Hs2 & H12).
  apply StronglySorted_inv in Hs2 as [_ Hall]. rewrite Forall_forall in Hall.
  split; intros c wc Hc Hcw.
  - rewrite <- Hpre in Hc. apply in_map_iff in Hc as ([c' wc'] & <- & Hc).
    cbn [fst] in Hcw.
    assert (wc' = wc).
    { apply (width_of_name c'); [|exact Hcw]. apply Hin. rewrite HS.
      apply in_or_app; now left. }
    subst wc'. apply (H12 (c', wc) (b, wb) Hc). now left.
  - rewrite <- Hpost in Hc. apply in_map_iff in Hc as ([c' wc'] & <- & Hc).
    cbn [fst] in Hcw.
    assert (wc' = wc).
    { apply (width_of_name c'); [|exact Hcw]. apply Hin. rewrite HS.
      apply in_or_app; right; now right. }
    subst wc'. apply (Hall (c', wc) Hc).
Qed.

(** With pairwise distinct widths the names before are narrower and the
    names after are wider. *)
Lemma sorted_around_strict (pre post : list string) (b : string) (wb : Z) :
  NoDup (map snd o) ->
  sortBreakpoints o = pre ++ b :: post ->
  In (b, wb) o ->
  (forall c wc, In c pre -> In (c, wc) o -> wc < wb) /\
  (forall c wc, In c post -> In (c, wc) o -> wb < wc).
Proof.
  intros Hw Hs Hb. destruct (sorted_around pre post b wb Hs Hb) as [Hlo Hhi].
  assert (Hnd := sortBreakpoints_NoDup o o_keys). rewrite Hs in Hnd.
  apply NoDup_remove_2 in Hnd.
  split; intros c wc Hc Hcw.
  - specialize (Hlo c wc Hc Hcw).
    assert (wc <> wb).
    { intros ->. apply Hnd, in_or_app. left.
      now rewrite <- (name_of_width c b wb Hw Hcw Hb). }
    lia.
  - specialize (Hhi c wc Hc Hcw).
    assert (wc <> wb).
    { intros ->. apply Hnd, in_or_app. right.
      now rewrite <- (name_of_width c b wb Hw Hcw Hb). }
    lia.
Qed.

(** Every name of the set is before, at or after a place of the sorted
    sequence. *)
Lemma sorted_place (pre post : list string) (b c : string) (wc : Z) :
  sortBreakpoints o = pre ++ b :: post ->
  In (c, wc) o -> In c pre \/ c = b \/ In c post.
Proof.
  intros Hs Hc. apply (in_map fst) in Hc. cbn [fst] in Hc.
  apply (sortBreakpoints_In o c o_keys) in Hc. rewrite Hs in Hc.
  apply in_app_or in Hc as [Hc|[Hc|Hc]]; auto.
Qed.

End Neighbours.

(** X2. On the registry of a breakpoint set, [getLargestBreakpoint] is
    [undefined] exactly for the empty set, and otherwise it is a name of the
    set that no breakpoint is wider than. *)
Theorem largest_breakpoint_is_widest
  (propKey : MediaBreakpointProps -> option MediaBreakpointKey)
  (o : object) (this : Breakpoints) :
  NoDup (Object_keys o) ->
  constructor propKey o = Return this ->
  (getLargestBreakpoint this = None <-> o = []) /\
  (forall b,
      getLargestBreakpoint this = Some b ->
      exists w,
        In (b, w) o /\ forall c wc, In (c, wc) o -> wc <= w).
Proof.
  intros Hkeys Hthis.
  destruct (constructor_fields propKey o this Hthis) as [Hsorted Hobj].
  assert (Hperm := sortBreakpoints_perm o Hkeys).
  split.
  - unfold getLargestBreakpoint. rewrite Hsorted. split.
    + intros Hnone. destruct (sortBreakpoints o) as [|x l] eqn:Hs.
      * apply Permutation_nil in Hperm. now destruct o.
      * exfalso. assert (Hne : x :: l <> []) by discriminate.
        rewrite (app_removelast_last x Hne) in Hnone.
        rewrite length_app in Hnone. cbn [List.length] in Hnone.
        replace (Z.of_nat (List.length (removelast (x :: l)) + 1) - 1)
          with (Z.of_nat (List.length (removelast (x :: l)))) in Hnone by lia.
        rewrite Array_get_nth, nth_error_app2 in Hnone by lia.
        now rewrite Nat.sub_diag in Hnone.
    + intros ->. reflexivity.
  - intros b Hb. destruct (largest_last this b Hb) as [pre Hs].
    rewrite Hsorted in Hs.
    assert (Hin : In b (Object_keys o)).
    { apply (sortBreakpoints_In o b Hkeys). rewrite Hs.
      apply in_or_app; right; now left. }
    destruct (Object_get_present o b Hin) as [w Hw].
    apply Object_get_Num_In in Hw. exists w. split; [exact Hw|].
    intros c wc Hc.
    destruct (sorted_around o Hkeys pre [] b w Hs Hw) as [Hlo _].
    destruct (sorted_place o Hkeys pre [] b c wc Hs Hc) as [Hpre|[->|[]]].
    + now apply (Hlo c wc).
    + rewrite (width_of_name o Hkeys b wc w Hc Hw). lia.
Qed.

Lemma largest_breakpoint_is_widest_witness :
  NoDup (Object_keys smMdLg) /\
  constructor propKey_first smMdLg = Return smMdLgRegistry /\
  exists w,
    In ("lg"%string, w) smMdLg /\ forall c wc, In (c, wc) smMdLg -> wc <= w.
Proof.
  split; [exact smMdLg_keys|]. split; [exact smMdLg_constructed|].
  exact (proj2 (largest_breakpoint_is_widest propKey_first smMdLg
                  smMdLgRegistry smMdLg_keys smMdLg_constructed)
           "lg"%string eq_refl).
Defined.

(** X4. On the registry of a breakpoint set with pairwise distinct widths and
    for a name [b] of the set, [_findNextBreakpoint(b)] returns the next
    wider breakpoint: a name of the set that is wider than [b], with no
    breakpoint of a width in between; and it throws exactly when no
    breakpoint is wider than [b]. *)
Theorem findNextBreakpoint_next_wider
  (propKey : MediaBreakpointProps -> option MediaBreakpointKey)
  (o : object) (this : Breakpoints) (b : string) (wb : Z) :
  propKey_single propKey ->
  NoDup (Object_keys o) ->
  NoDup (map snd o) ->
  constructor propKey o = Return this ->
  In (b, wb) o ->
  (forall next,
      _findNextBreakpoint this (Some b) = Return next ->
      exists wn,
        In (next, wn) o /\ wb < wn /\
        forall c wc, In (c, wc) o -> wc <= wb \/ wn <= wc) /\
  ((exists e, _findNextBreakpoint this (Some b) = Throw e) <->
   forall c wc, In (c, wc) o -> wc <= wb).
Proof.
  intros Hone Hkeys Hwidths Hthis Hb.
  registry_facts Hone Hkeys Hthis.
  assert (Hin : In b (_sortedBreakpoints this)).
  { rewrite Hsorted. apply (sortBreakpoints_In o b Hkeys).
    now apply (in_map fst) in Hb. }
  apply in_split in Hin as (pre & post & Hs).
  assert (Hs' : sortBreakpoints o = pre ++ b :: post) by now rewrite <- Hsorted.
  destruct post as [|next post].
  - (* [b] is the last name *)
    assert (Hwidest : forall c wc, In (c, wc) o -> wc <= wb).
    { intros c wc Hc.
      destruct (sorted_around o Hkeys pre [] b wb Hs' Hb) as [Hlo _].
      destruct (sorted_place o Hkeys pre [] b c wc Hs' Hc) as [Hpre|[->|[]]].
      - now apply (Hlo c wc).
      - rewrite (width_of_name o Hkeys b wc wb Hc Hb). lia. }
    rewrite (findNext_last this pre b Hs Hnd). split.
    + intros next Hnext. discriminate.
    + split; [intros _; exact Hwidest|intros _; now eexists].
  - (* [next] follows [b] *)
    assert (Hnext : next <> ""%string).
    { apply Hnames. rewrite Hs. apply in_or_app; right; right; now left. }
    rewrite (findNext_middle this pre post b next Hs Hnd Hnext).
    assert (Hnextin : In next (Object_keys o)).
    { apply (sortBreakpoints_In o next Hkeys). rewrite Hs'.
      apply in_or_app; right; right; now left. }
    destruct (Object_get_present o next Hnextin) as [wn Hwn].
    apply Object_get_Num_In in Hwn.
    destruct (sorted_around_strict o Hkeys pre (next :: post) b wb
                Hwidths Hs' Hb) as [Hlo Hhi].
    assert (Hlt : wb < wn) by (apply (Hhi next wn); [now left|exact Hwn]).
    split.
    + intros next' Heq. injection Heq as <-. exists wn.
      split; [exact Hwn|]. split; [exact Hlt|].
      intros c wc Hc.
      assert (Hs'' : sortBreakpoints o = (pre ++ [b]) ++ next :: post)
        by (rewrite <- app_assoc; exact Hs').
      destruct (sorted_around o Hkeys (pre ++ [b]) post next wn Hs'' Hwn)
        as [_ Hhi'].
      destruct (sorted_place o Hkeys pre (next :: post) b c wc Hs' Hc)
        as [Hpre|[->|[<-|Hpost]]].
      * left. specialize (Hlo c wc Hpre Hc). lia.
      * left. rewrite (width_of_name o Hkeys b wc wb Hc Hb). lia.
      * right. rewrite (width_of_name o Hkeys next wc wn Hc Hwn). lia.
      * right. now apply (Hhi' c wc).
    + split; [intros [e He]; discriminate|].
      intros Hwidest. specialize (Hwidest next wn Hwn). lia.
Qed.

Lemma findNextBreakpoint_next_wider_witness :
  propKey_single propKey_first /\
  NoDup (Object_keys smMdLg) /\ NoDup (map snd smMdLg) /\
  constructor propKey_first smMdLg = Return smMdLgRegistry /\
  In ("sm"%string, 0) smMdLg /\
  exists wn,
    In ("md"%string, wn) smMdLg /\ 0 < wn /\
    forall c wc, In (c, wc) smMdLg -> wc <= 0 \/ wn <= wc.
Proof.
  assert (Hw : NoDup (map snd smMdLg))
    by (repeat constructor; cbn; intuition discriminate).
  assert (Hsm : In ("sm"%string, 0) smMdLg) by (cbn; tauto).
  split; [exact propKey_first_single|]. split; [exact smMdLg_keys|].
  split; [exact Hw|]. split; [exact smMdLg_constructed|]. split; [exact Hsm|].
  exact (proj1 (findNextBreakpoint_next_wider propKey_first smMdLg
                  smMdLgRegistry "sm"%string 0 propKey_first_single
                  smMdLg_keys Hw smMdLg_constructed Hsm)
           "md"%string eq_refl).
Defined.

(** X14. On the registry of a breakpoint set with pairwise distinct widths,
    when the render list is the single breakpoint [a], the directive [at(b)]
    is admitted exactly for [b = a]. *)
Theorem at_admitted_at_its_breakpoint
  (propKey : MediaBreakpointProps -> option MediaBreakpointKey)
  (o : object) (this : Breakpoints) (a b : string) :
  propKey_single propKey ->
  NoDup (Object_keys o) ->
  NoDup (map snd o) ->
  constructor propKey o = Return this ->
  In a (Object_keys o) ->
  In b (Object_keys o) ->
  shouldRenderMediaQuery propKey this (singleProp K_at b) [a]
  = Return (Some true) <-> a = b.
Proof.
  intros Hone Hkeys Hwidths Hthis Ha Hb.
  registry_facts Hone Hkeys Hthis.
  destruct (Object_get_present o a Ha) as [wa Hwa].
  destruct (Object_get_present o b Hb) as [wb Hwb].
  assert (Hao := Object_get_Num_In o a wa Hwa).
  assert (Hbo := Object_get_Num_In o b wb Hwb).
  assert (Hin : In b (_sortedBreakpoints this)).
  { rewrite Hsorted. now apply (sortBreakpoints_In o b Hkeys). }
  assert (Hbne : b <> ""%string) by now apply Hnames.
  apply in_split in Hin as (pre & post & Hs).
  assert (Hs' : sortBreakpoints o = pre ++ b :: post) by now rewrite <- Hsorted.
  destruct (sorted_around_strict o Hkeys pre post b wb Hwidths Hs' Hbo)
    as [Hlo Hhi].
  assert (Hplace := sorted_place o Hkeys pre post b a wa Hs' Hao).
  rewrite <- admit_normalized, (normalize_at this b Hbne).
  rewrite Hs in Hnd |- *. rewrite next_in_NoDup by assumption.
  destruct post as [|next post]; cbn [hd_error].
  - rewrite (admit_greaterThanOrEqual propKey Hone), Hobj.
    cbn [map]. rewrite Hwa, Hwb.
    change (Math_max [Number (Num wa)]) with (Number (Num wa)).
    rewrite ge_Num. split.
    + intros H. injection H as H. apply Z.geb_le in H.
      destruct Hplace as [Hpre|[->|[]]]; [|reflexivity].
      specialize (Hlo a wa Hpre Hao). lia.
    + intros ->. rewrite (width_of_name o Hkeys b wa wb Hao Hbo).
      now rewrite (proj2 (Z.geb_le wb wb)) by lia.
  - assert (Hnext : next <> ""%string).
    { apply Hnames. rewrite Hs. apply in_or_app; right; right; now left. }
    rewrite (proj2 (truthy_Some next) Hnext).
    assert (Hnextin : In next (Object_keys o)).
    { apply (sortBreakpoints_In o next Hkeys). rewrite Hs'.
      apply in_or_app; right; right; now left. }
    destruct (Object_get_present o next Hnextin) as [wn Hwn].
    assert (Hno := Object_get_Num_In o next wn Hwn).
    assert (Hs'' : sortBreakpoints o = (pre ++ [b]) ++ next :: post)
      by (rewrite <- app_assoc; exact Hs').
    destruct (sorted_around o Hkeys (pre ++ [b]) post next wn Hs'' Hno)
      as [_ Hhi'].
    rewrite (admit_between propKey Hone), Hobj.
    cbn [map]. rewrite Hwa, Hwb, Hwn.
    change (Math_max [Number (Num wa)]) with (Number (Num wa)).
    change (Math_min [Number (Num wa)]) with (Number (Num wa)).
    rewrite ge_Num, lt_Num, Z.geb_leb. split.
    + intros H. injection H as H.
      apply negb_true_iff, orb_false_iff in H as [H1 H2].
      apply Z.ltb_ge in H1. apply Z.leb_gt in H2.
      destruct Hplace as [Hpre|[->|[<-|Hpost]]]; [|reflexivity| |].
      * specialize (Hlo a wa Hpre Hao). lia.
      * rewrite (width_of_name o Hkeys next wa wn Hao Hno) in H2. lia.
      * specialize (Hhi' a wa Hpost Hao). lia.
    + intros ->. rewrite (width_of_name o Hkeys b wa wb Hao Hbo).
      assert (wb < wn) by (apply (Hhi next wn); [now left|exact Hno]).
      rewrite (proj2 (Z.ltb_ge wb wb)) by lia.
      now rewrite (proj2 (Z.leb_gt wn wb)) by lia.
Qed.

Lemma at_admitted_at_its_breakpoint_witness :
  propKey_single propKey_first /\
  NoDup (Object_keys smMdLg) /\ NoDup (map snd smMdLg) /\
  constructor propKey_first smMdLg = Return smMdLgRegistry /\
  In "md"%string (Object_keys smMdLg) /\
  (shouldRenderMediaQuery propKey_first smMdLgRegistry
     (singleProp K_at "md"%string) ["md"%string]
   = Return (Some true) <-> "md"%string = "md"%string).
Proof.
  assert (Hw : NoDup (map snd smMdLg))
    by (repeat constructor; cbn; intuition discriminate).
  assert (Hmd : In "md"%string (Object_keys smMdLg)) by (cbn; tauto).
  split; [exact propKey_first_single|]. split; [exact smMdLg_keys|].
  split; [exact Hw|]. split; [exact smMdLg_constructed|]. split; [exact Hmd|].
  exact (at_admitted_at_its_breakpoint propKey_first smMdLg smMdLgRegistry
           "md"%string "md"%string propKey_first_single smMdLg_keys Hw
           smMdLg_constructed Hmd Hmd).
Defined.

(** ** Failure of the construction *)

Section FirstFailure.

Variable propKey : MediaBreakpointProps -> option MediaBreakpointKey.
Variable this : Breakpoints.
Variable key : MediaBreakpointKey.

Let compiles (breakpoint : operand key) : Prop :=
  exists query,
    _createBreakpointQuery propKey this (singleProp key breakpoint) = Return query.

Let step (acc : Completion Map) (breakpoint : operand key) : Completion Map :=
  map <- acc ;;
  query <- _createBreakpointQuery propKey this (singleProp key breakpoint) ;;
  Return (Map_set map (breakpointKey (as_union key breakpoint)) query).

Lemma queries_fold_first_Throw (pre post : list (operand key))
  (b : operand key) (m : Map) (e : Exception) :
  Forall compiles pre ->
  _createBreakpointQuery propKey this (singleProp key b) = Throw e ->
  fold_left step (pre ++ b :: post) (Return m) = Throw e.
Proof.
  intros Hpre Hb. rewrite fold_left_app.
  change (fold_left step pre (Return m))
    with (fold_left
            (fun acc breakpoint =>
               map <- acc ;;
               query <- _createBreakpointQuery propKey this
                          (singleProp key breakpoint) ;;
               Return (Map_set map (breakpointKey (as_union key breakpoint))
                         query))
            pre (Return m)).
  rewrite (queries_fold_Return propKey this key pre m Hpre).
  cbn [fold_left]. unfold step at 2. cbn [bind]. rewrite Hb. cbn [bind].
  apply (queries_fold_Throw propKey this key).
Qed.

Lemma queries_fold_Throw_inv (l : list (operand key)) (m : Map) (e : Exception) :
  fold_left step l (Return m) = Throw e ->
  exists pre b post,
    l = pre ++ b :: post /\ Forall compiles pre /\
    _createBreakpointQuery propKey this (singleProp key b) = Throw e.
Proof.
  revert m; induction l as [|b l IH]; intros m; [discriminate|].
  cbn [fold_left]. unfold step at 2. cbn [bind].
  destruct (_createBreakpointQuery propKey this (singleProp key b))
    as [query|e'] eqn:Hb; cbn [bind].
  - intros H. destruct (IH _ H) as (pre & b' & post & -> & Hpre & Hb').
    exists (b :: pre), b', post. repeat split; [|exact Hb'].
    constructor; [now exists query|exact Hpre].
  - intros H.
    change (fold_left step l (Throw e'))
      with (fold_left
              (fun acc breakpoint =>
                 map <- acc ;;
                 query <- _createBreakpointQuery propKey this
                            (singleProp key breakpoint) ;;
                 Return (Map_set map (breakpointKey (as_union key breakpoint))
                           query))
              l (Throw e')) in H.
    rewrite (queries_fold_Throw propKey this key) in H. injection H as <-.
    exists [], b, l. repeat split; [constructor|exact Hb].
Qed.

End FirstFailure.

(** X16. [_createBreakpointQueries] returns a map exactly when every operand
    of the list compiles; it throws [e] exactly when [e] is the exception of
    the first operand whose compilation throws. *)
Theorem createBreakpointQueries_first_failure
  (propKey : MediaBreakpointProps -> option MediaBreakpointKey)
  (this : Breakpoints) (key : MediaBreakpointKey)
  (forBreakpoints : list (operand key)) :
  ((exists map,
       _createBreakpointQueries propKey this key forBreakpoints = Return map) <->
   forall breakpoint,
     In breakpoint forBreakpoints ->
     exists query,
       _createBreakpointQuery propKey this (singleProp key breakpoint)
       = Return query) /\
  (forall e,
      _createBreakpointQueries propKey this key forBreakpoints = Throw e <->
      exists pre breakpoint post,
        forBreakpoints = pre ++ breakpoint :: post /\
        (forall earlier,
            In earlier pre ->
            exists query,
              _createBreakpointQuery propKey this (singleProp key earlier)
              = Return query) /\
        _createBreakpointQuery propKey this (singleProp key breakpoint)
        = Throw e).
Proof.
  split.
  - rewrite <- Forall_forall. split.
    + intros [map Hmap]. now apply createQueries_Return in Hmap.
    + intros Hall. eexists. apply createQueries_Return. now split.
  - intros e. split.
    + intros H. apply queries_fold_Throw_inv in H
        as (pre & b & post & -> & Hpre & Hb).
      exists pre, b, post. rewrite <- Forall_forall. now repeat split.
    + intros (pre & b & post & -> & Hpre & Hb). rewrite <- Forall_forall in Hpre.
      now apply queries_fold_first_Throw.
Qed.

Lemma createBreakpointQueries_first_failure_witness :
  _createBreakpointQueries propKey_first smMdLgRegistry K_greaterThan
    ["sm"; "lg"; "md"]%string
  = Throw (Error "There is no breakpoint larger than lg").
Proof.
  apply (proj2 (createBreakpointQueries_first_failure propKey_first
                  smMdLgRegistry K_greaterThan ["sm"; "lg"; "md"]%string)).
  exists ["sm"%string], "lg"%string, ["md"%string].
  split; [reflexivity|]. split; [|reflexivity].
  intros earlier [<-|[]]. eexists. reflexivity.
Defined.

(** X1. Construction succeeds exactly for the breakpoint sets without the
    empty name: with a breakpoint named [""] the constructor throws the
    ["Unexpected breakpoint props"] error of [at("")], whatever the other
    breakpoints are. *)
Theorem constructor_throws_on_empty_name
  (propKey : MediaBreakpointProps -> option MediaBreakpointKey)
  (o : object) :
  propKey_single propKey ->
  NoDup (Object_keys o) ->
  ((exists this, constructor propKey o = Return this) <->
   ~ In ""%string (Object_keys o)) /\
  (In ""%string (Object_keys o) ->
   constructor propKey o
   = Throw (UnexpectedBreakpointProps (singleProp K_at ""%string))).
Proof.
  intros Hone Hkeys.
  assert (Hthrow : In ""%string (Object_keys o) ->
            constructor propKey o
            = Throw (UnexpectedBreakpointProps (singleProp K_at ""%string))).
  { intros Hin. apply (sortBreakpoints_In o _ Hkeys) in Hin.
    apply In_split_first in Hin as (pre & post & Hs & Hpre).
    unfold constructor. rewrite Hs at 2.
    set (this0 := mkBreakpoints (sortBreakpoints o) o None).
    assert (Hat : _createBreakpointQueries propKey this0 K_at
                    (pre ++ ""%string :: post)
                  = Throw (UnexpectedBreakpointProps (singleProp K_at ""%string))).
    { apply queries_fold_first_Throw.
      - apply Forall_forall. intros b Hb. apply (at_compiles propKey Hone).
        intros ->. now apply Hpre.
      - now apply compile_at_empty. }
    now rewrite Hat. }
  split; [|exact Hthrow]. split.
  - intros [this Hthis] Hin. rewrite (Hthrow Hin) in Hthis. discriminate.
  - intros Hnot. apply (constructor_total propKey Hone o Hkeys).
    apply Forall_forall. intros b Hb ->. now apply Hnot.
Qed.

Lemma constructor_throws_on_empty_name_witness :
  propKey_single propKey_first /\
  NoDup (Object_keys [("sm"%string, 0); (""%string, 768)]) /\
  In ""%string (Object_keys [("sm"%string, 0); (""%string, 768)]) /\
  constructor propKey_first [("sm"%string, 0); (""%string, 768)]
  = Throw (UnexpectedBreakpointProps (singleProp K_at ""%string)).
Proof.
  assert (Hk : NoDup (Object_keys [("sm"%string, 0); (""%string, 768)]))
    by (repeat constructor; cbn; intuition discriminate).
  assert (Hin : In ""%string (Object_keys [("sm"%string, 0); (""%string, 768)]))
    by (cbn; tauto).
  split; [exact propKey_first_single|]. split; [exact Hk|]. split; [exact Hin|].
  exact (proj2 (constructor_throws_on_empty_name propKey_first _
                  propKey_first_single Hk) Hin).
Defined.

(** ** The precomputed queries *)

Section Lookup.

Lemma Map_get_listed {B : Type} (kf vf : B -> string) (l : list B) (b : B) :
  NoDup (map kf l) -> In b l ->
  Map_get (map (fun b => (kf b, vf b)) l) (kf b) = Some (vf b).
Proof.
  induction l as [|x l IH]; [easy|]. cbn [map Map_get]. intros Hnd Hin.
  inversion Hnd as [|? ? Hnotin Hnd']; subst.
  destruct Hin as [->|Hin]; [now rewrite String.eqb_refl|].
  destruct (String.eqb_spec (kf x) (kf b)) as [Heq|Hne]; [|now apply IH].
  exfalso. apply Hnotin. rewrite Heq. now apply in_map.
Qed.

Lemma Map_get_absent (m : Map) (k : string) :
  ~ In k (Map_keys m) -> Map_get m k = None.
Proof.
  induction m as [|[k' v] m IH]; [reflexivity|].
  cbn [Map_keys map fst Map_get]. intros Hin.
  destruct (String.eqb_spec k' k) as [->|Hne].
  - exfalso; apply Hin; now left.
  - apply IH. intros H; apply Hin; now right.
Qed.

(** Copying the entries of a map into an object, one spread at a time,
    gives the entries back. *)
Lemma spread_entries (m : Map) :
  NoDup (Map_keys m) ->
  fold_left (fun acc '(k, v) => spread_with acc k v) m [] = m.
Proof.
  intros Hnd.
  assert (Hfold : forall l acc,
             fold_left (fun acc '(k, v) => spread_with acc k v) l acc
             = fold_left (fun acc (e : string * string) =>
                            Map_set acc (fst e) (snd e)) l acc).
  { induction l as [|[k v] l IH]; intros acc; [reflexivity|apply IH]. }
  rewrite Hfold, (fill_distinct fst snd m []) by exact Hnd.
  cbn [app]. rewrite <- (map_id m) at 2. apply map_ext. now intros [k v].
Qed.

Variable propKey : MediaBreakpointProps -> option MediaBreakpointKey.
Variable this : Breakpoints.
Variable key : MediaBreakpointKey.

(** With no two operands of one key, the map holds under the key of each
    operand the query the operand compiles to. *)
Lemma createQueries_lookup (l : list (operand key)) (m : Map)
  (b : operand key) :
  _createBreakpointQueries propKey this key l = Return m ->
  NoDup (map (fun b => breakpointKey (as_union key b)) l) ->
  In b l ->
  exists query,
    Map_get m (breakpointKey (as_union key b)) = Some query /\
    _createBreakpointQuery propKey this (singleProp key b) = Return query.
Proof.
  intros Hm Hnd Hin. apply createQueries_Return in Hm as [Hall ->].
  rewrite Forall_forall in Hall. destruct (Hall b Hin) as [query Hquery].
  exists query. split; [|exact Hquery].
  unfold queriesOf.
  rewrite (fill_distinct (fun b => breakpointKey (as_union key b))
             (fun b => queryText propKey this (singleProp key b)) l [] Hnd).
  cbn [app].
  rewrite (Map_get_listed (fun b => breakpointKey (as_union key b))
             (fun b => queryText propKey this (singleProp key b)) l b Hnd Hin).
  unfold queryText. now rewrite Hquery.
Qed.

End Lookup.

(** X11. On the registry of any breakpoint set, the maps are a cache of the
    compilation: under every name the [at] and [greaterThanOrEqual] maps hold
    the query that directive compiles to, the [lessThan] map does for every
    name but the smallest, the [greaterThan] map for every name but the
    largest, and, when no name holds a hyphen, the [between] map does under
    [b1-b2] for every pair with [b1] before [b2]. *)
Theorem maps_cache_compilation
  (propKey : MediaBreakpointProps -> option MediaBreakpointKey)
  (o : object) (this : Breakpoints) :
  NoDup (Object_keys o) ->
  constructor propKey o = Return this ->
  exists q,
    _mediaQueries this = Some q /\
    (forall b,
        In b (Object_keys o) ->
        exists query,
          Map_get (q_at q) b = Some query /\
          _createBreakpointQuery propKey this (singleProp K_at b)
          = Return query) /\
    (forall b,
        In b (Object_keys o) ->
        exists query,
          Map_get (q_greaterThanOrEqual q) b = Some query /\
          _createBreakpointQuery propKey this (singleProp K_greaterThanOrEqual b)
          = Return query) /\
    (forall first rest b,
        _sortedBreakpoints this = first :: rest ->
        In b rest ->
        exists query,
          Map_get (q_lessThan q) b = Some query /\
          _createBreakpointQuery propKey this (singleProp K_lessThan b)
          = Return query) /\
    (forall init last b,
        _sortedBreakpoints this = init ++ [last] ->
        In b init ->
        exists query,
          Map_get (q_greaterThan q) b = Some query /\
          _createBreakpointQuery propKey this (singleProp K_greaterThan b)
          = Return query) /\
    (Forall (fun b => hyphenFree b = true) (Object_keys o) ->
     forall i j b1 b2,
       (i < j)%nat ->
       nth_error (_sortedBreakpoints this) i = Some b1 ->
       nth_error (_sortedBreakpoints this) j = Some b2 ->
       exists query,
         Map_get (q_between q) (b1 +++ "-" +++ b2) = Some query /\
         _createBreakpointQuery propKey this (singleProp K_between (b1, b2))
         = Return query).
Proof.
  intros Hkeys Hthis.
  destruct (constructor_Return propKey o this Hthis)
    as (q & -> & H1 & H2 & H3 & H4 & H5).
  assert (Hnd := sortBreakpoints_NoDup o Hkeys).
  exists q. cbn [_mediaQueries _sortedBreakpoints]. split; [reflexivity|].
  set (this := mkBreakpoints (sortBreakpoints o) o (Some q)) in *.
  split; [|split; [|split; [|split]]].
  - intros b Hb. apply (sortBreakpoints_In o b Hkeys) in Hb.
    apply (createQueries_lookup propKey _ K_at _ _ b H1); [|exact Hb].
    cbn [as_union breakpointKey]. now rewrite map_id.
  - intros b Hb. apply (sortBreakpoints_In o b Hkeys) in Hb.
    apply (createQueries_lookup propKey _ K_greaterThanOrEqual _ _ b H4);
      [|exact Hb].
    cbn [as_union breakpointKey]. now rewrite map_id.
  - intros first rest b Hs Hb. rewrite Hs in H2, Hnd. cbn [slice_from skipn] in H2.
    apply (createQueries_lookup propKey _ K_lessThan _ _ b H2); [|exact Hb].
    cbn [as_union breakpointKey]. rewrite map_id. now inversion Hnd.
  - intros init last b Hs Hb. rewrite Hs in H3, Hnd. unfold slice_init in H3.
    rewrite removelast_last in H3.
    apply (createQueries_lookup propKey _ K_greaterThan _ _ b H3); [|exact Hb].
    cbn [as_union breakpointKey]. rewrite map_id.
    now apply NoDup_app_remove_r in Hnd.
  - intros Hfree i j b1 b2 Hlt Hi Hj.
    assert (Hfree' : Forall (fun b => hyphenFree b = true) (sortBreakpoints o)).
    { rewrite Forall_forall in *. intros b Hb. apply Hfree.
      now apply sortBreakpoints_In. }
    rewrite betweenCombinations_pairs in H5.
    apply (createQueries_lookup propKey _ K_between _ _ (b1, b2) H5).
    + exact (joined_pairs_NoDup _ Hnd Hfree').
    + apply orderedPairs_In. now exists i, j.
Qed.

Lemma maps_cache_compilation_witness :
  NoDup (Object_keys smMdLg) /\
  constructor propKey_first smMdLg = Return smMdLgRegistry /\
  exists q,
    _mediaQueries smMdLgRegistry = Some q /\
    exists query,
      Map_get (q_at q) "md"%string = Some query /\
      _createBreakpointQuery propKey_first smMdLgRegistry
        (singleProp K_at "md"%string) = Return query.
Proof.
  split; [exact smMdLg_keys|]. split; [exact smMdLg_constructed|].
  destruct (maps_cache_compilation propKey_first smMdLg smMdLgRegistry
              smMdLg_keys smMdLg_constructed)
    as (q & Hq & Hat & _).
  exists q. split; [exact Hq|]. apply Hat. cbn; tauto.
Defined.

(** X3. On the registry of any breakpoint set,
    [getDynamicResponsiveMediaQueries] returns an object that has, for every
    breakpoint name, an own property with the query [at] of that name
    compiles to, and no other own property. *)
Theorem getDynamicResponsiveMediaQueries_reads
  (propKey : MediaBreakpointProps -> option MediaBreakpointKey)
  (o : object) (this : Breakpoints) :
  NoDup (Object_keys o) ->
  constructor propKey o = Return this ->
  exists record,
    getDynamicResponsiveMediaQueries this = Return record /\
    (forall b,
        In b (Object_keys o) ->
        exists query,
          Record_own record b = Some query /\
          _createBreakpointQuery propKey this (singleProp K_at b)
          = Return query) /\
    (forall b, ~ In b (Object_keys o) -> Record_own record b = None).
Proof.
  intros Hkeys Hthis.
  destruct (constructor_Return propKey o this Hthis)
    as (q & -> & H1 & _).
  assert (Hnd := sortBreakpoints_NoDup o Hkeys).
  assert (Hkeysat : Map_keys (q_at q) = sortBreakpoints o).
  { rewrite (createQueries_keys propKey _ K_at _ _ H1);
      cbn [as_union breakpointKey]; now rewrite map_id. }
  exists (q_at q). unfold getDynamicResponsiveMediaQueries.
  cbn [_mediaQueries]. split; [|split].
  - rewrite spread_entries; [reflexivity|]. now rewrite Hkeysat.
  - intros b Hb. apply (sortBreakpoints_In o b Hkeys) in Hb.
    apply (createQueries_lookup propKey _ K_at _ _ b H1); [|exact Hb].
    cbn [as_union breakpointKey]. now rewrite map_id.
  - intros b Hb. apply Map_get_absent. rewrite Hkeysat.
    intros H. apply Hb. now apply (sortBreakpoints_In o b Hkeys).
Qed.

Lemma getDynamicResponsiveMediaQueries_reads_witness :
  NoDup (Object_keys smMdLg) /\
  constructor propKey_first smMdLg = Return smMdLgRegistry /\
  exists record,
    getDynamicResponsiveMediaQueries smMdLgRegistry = Return record /\
    Record_own record "xl"%string = None.
Proof.
  split; [exact smMdLg_keys|]. split; [exact smMdLg_constructed|].
  destruct (getDynamicResponsiveMediaQueries_reads propKey_first smMdLg
              smMdLgRegistry smMdLg_keys smMdLg_constructed)
    as (record & Hrecord & _ & Habsent).
  exists record. split; [exact Hrecord|]. apply Habsent.
  cbn; intuition discriminate.
Defined.

(** X17. [breakpointKey] of a name is the name, and on pairs whose first
    names hold no hyphen it is injective: two such pairs with the same key
    are the same pair. *)
Theorem breakpointKey_injective (b : string) (p p' : Tuple) :
  breakpointKey (inl b) = b /\
  (hyphenFree (fst p) = true ->
   hyphenFree (fst p') = true ->
   breakpointKey (inr p) = breakpointKey (inr p') -> p = p').
Proof.
  split; [reflexivity|]. destruct p as [a1 b1], p' as [a2 b2].
  cbn [fst breakpointKey]. intros H1 H2 Heq.
  now destruct (join_injective a1 b1 a2 b2 H1 H2 Heq) as [-> ->].
Qed.

Lemma breakpointKey_injective_witness :
  hyphenFree "sm" = true /\
  breakpointKey (inr ("sm", "md-lg")%string)
  = breakpointKey (inr ("sm", "md-lg")%string) /\
  ("sm", "md-lg")%string = ("sm", "md-lg")%string.
Proof.
  split; [reflexivity|]. split; [reflexivity|].
  exact (proj2 (breakpointKey_injective "sm" ("sm", "md-lg") ("sm", "md-lg"))%string
           eq_refl eq_refl eq_refl).
Defined.

(** ** The order the breakpoints are written in *)

Section KeyOrder.

Variable propKey : MediaBreakpointProps -> option MediaBreakpointKey.

Lemma Object_get_perm (o o' : object) (k : string) :
  NoDup (Object_keys o) -> Permutation o o' ->
  Object_get o k = Object_get o' k.
Proof.
  intros Hkeys Hperm.
  assert (Hkeys' : NoDup (Object_keys o')).
  { eapply Permutation_NoDup; [|exact Hkeys]. now apply Permutation_map. }
  destruct (Object_get_cases o k) as [Hundef|[w Hw]].
  - rewrite Hundef. symmetry. apply Object_get_absent. intros Hin.
    apply in_map_iff in Hin as ([k' w] & Hk & Hin). cbn [fst] in Hk. subst k'.
    apply (Permutation_in _ (Permutation_sym Hperm)) in Hin.
    rewrite (Object_get_In o k w Hkeys Hin) in Hundef. discriminate.
  - rewrite Hw. symmetry. apply Object_get_In; [exact Hkeys'|].
    apply (Permutation_in _ Hperm). now apply Object_get_Num_In.
Qed.

Lemma sortBreakpoints_perm_eq (o o' : object) :
  NoDup (Object_keys o) -> NoDup (map snd o) -> Permutation o o' ->
  sortBreakpoints o = sortBreakpoints o'.
Proof.
  intros Hkeys Hwidths Hperm.
  assert (Hkeys' : NoDup (Object_keys o')).
  { eapply Permutation_NoDup; [|exact Hkeys]. now apply Permutation_map. }
  assert (Hwidths' : NoDup (map snd o')).
  { eapply Permutation_NoDup; [|exact Hwidths]. now apply Permutation_map. }
  rewrite !sortBreakpoints_keys by assumption. f_equal.
  apply strictly_sorted_unique; [|now apply sortByWidth_strict..].
  rewrite (sortByWidth_perm o), Hperm. symmetry. apply sortByWidth_perm.
Qed.

Variables (sorted : list string) (o o' : object).
Variables (q q' : option MediaQueries).
Hypothesis same_reads : forall k, Object_get o k = Object_get o' k.

Lemma compile_ext (props : MediaBreakpointProps) :
  _createBreakpointQuery propKey (mkBreakpoints sorted o q) props
  = _createBreakpointQuery propKey (mkBreakpoints sorted o' q') props.
Proof.
  unfold _createBreakpointQuery.
  change (_normalizeProps (mkBreakpoints sorted o' q') props)
    with (_normalizeProps (mkBreakpoints sorted o q) props).
  destruct (propKey _) as [[]|]; cbn [_breakpoints]; rewrite ?same_reads;
    try reflexivity.
  - change (_findNextBreakpoint (mkBreakpoints sorted o' q'))
      with (_findNextBreakpoint (mkBreakpoints sorted o q)).
    destruct (_findNextBreakpoint _ _) as [next|e]; cbn [bind];
      rewrite ?same_reads; reflexivity.
  - destruct (between _) as [[b0 b1]|]; rewrite ?same_reads; reflexivity.
Qed.

Lemma admit_ext (props : MediaBreakpointProps) (onlyRenderAt : list string) :
  shouldRenderMediaQuery propKey (mkBreakpoints sorted o q) props onlyRenderAt
  = shouldRenderMediaQuery propKey (mkBreakpoints sorted o' q') props
      onlyRenderAt.
Proof.
  assert (Hmap : map (fun a => Object_get o a) onlyRenderAt
                 = map (fun a => Object_get o' a) onlyRenderAt)
    by (apply map_ext; exact same_reads).
  unfold shouldRenderMediaQuery.
  change (_normalizeProps (mkBreakpoints sorted o' q') props)
    with (_normalizeProps (mkBreakpoints sorted o q) props).
  destruct (propKey _) as [[]|]; cbn [_breakpoints];
    rewrite ?same_reads, ?Hmap; try reflexivity.
  - change (_findNextBreakpoint (mkBreakpoints sorted o' q'))
      with (_findNextBreakpoint (mkBreakpoints sorted o q)).
    destruct (_findNextBreakpoint _ _) as [next|e]; cbn [bind];
      rewrite ?same_reads, ?Hmap; reflexivity.
  - destruct (between _) as [[b0 b1]|]; rewrite ?same_reads, ?Hmap;
      reflexivity.
Qed.

Lemma createQueries_ext (key : MediaBreakpointKey) (l : list (operand key)) :
  _createBreakpointQueries propKey (mkBreakpoints sorted o q) key l
  = _createBreakpointQueries propKey (mkBreakpoints sorted o' q') key l.
Proof.
  unfold _createBreakpointQueries.
  match goal with
  | |- fold_left ?f l ?init = fold_left ?g l ?init =>
      enough (H : forall acc, fold_left f l acc = fold_left g l acc)
        by apply H
  end.
  induction l as [|b l IH]; intros acc; cbn [fold_left]; [reflexivity|].
  rewrite (compile_ext (singleProp key b)). apply IH.
Qed.

End KeyOrder.

(** X13. The order in which the breakpoints are written in the object does
    not matter when the widths are pairwise distinct: the registry of a
    reordered object has the same sorted sequence and the same maps of
    compiled queries, and [_createBreakpointQuery] and
    [shouldRenderMediaQuery] return the same on it. *)
Theorem construction_ignores_key_order
  (propKey : MediaBreakpointProps -> option MediaBreakpointKey)
  (o o' : object) (this : Breakpoints) :
  NoDup (Object_keys o) ->
  NoDup (map snd o) ->
  Permutation o o' ->
  constructor propKey o = Return this ->
  exists this',
    constructor propKey o' = Return this' /\
    _sortedBreakpoints this' = _sortedBreakpoints this /\
    _mediaQueries this' = _mediaQueries this /\
    (forall props,
        _createBreakpointQuery propKey this' props
        = _createBreakpointQuery propKey this props) /\
    (forall props onlyRenderAt,
        shouldRenderMediaQuery propKey this' props onlyRenderAt
        = shouldRenderMediaQuery propKey this props onlyRenderAt).
Proof.
  intros Hkeys Hwidths Hperm Hthis.
  assert (Hreads : forall k, Object_get o' k = Object_get o k)
    by (intros k; symmetry; now apply Object_get_perm).
  assert (Hsorted := sortBreakpoints_perm_eq o o' Hkeys Hwidths Hperm).
  destruct (constructor_Return propKey o this Hthis) as (qs & -> & _).
  exists (mkBreakpoints (sortBreakpoints o) o' (Some qs)).
  split; [|split; [reflexivity|split; [reflexivity|split]]].
  - revert Hthis. unfold constructor. rewrite <- Hsorted.
    rewrite !(createQueries_ext propKey (sortBreakpoints o) o' o None None Hreads).
    destruct (_createBreakpointQueries _ _ K_at _); [|discriminate].
    destruct (_createBreakpointQueries _ _ K_lessThan _); [|discriminate].
    destruct (_createBreakpointQueries _ _ K_greaterThan _); [|discriminate].
    destruct (_createBreakpointQueries _ _ K_greaterThanOrEqual _); [|discriminate].
    destruct (_createBreakpointQueries _ _ K_between _); [|discriminate].
    cbn [bind]. intros H. injection H as <-. reflexivity.
  - intros props. now apply compile_ext.
  - intros props onlyRenderAt. now apply admit_ext.
Qed.

Lemma construction_ignores_key_order_witness :
  NoDup (Object_keys smMdLg) /\ NoDup (map snd smMdLg) /\
  Permutation smMdLg lgSmMd /\
  constructor propKey_first smMdLg = Return smMdLgRegistry /\
  exists this',
    constructor propKey_first lgSmMd = Return this' /\
    _mediaQueries this' = _mediaQueries smMdLgRegistry.
Proof.
  assert (Hw : NoDup (map snd smMdLg))
    by (repeat constructor; cbn; intuition discriminate).
  assert (Hperm : Permutation smMdLg lgSmMd).
  { unfold smMdLg, lgSmMd.
    apply (perm_trans (perm_skip _ (perm_swap _ _ _))). apply perm_swap. }
  split; [exact smMdLg_keys|]. split; [exact Hw|]. split; [exact Hperm|].
  split; [exact smMdLg_constructed|].
  destruct (construction_ignores_key_order propKey_first smMdLg lgSmMd
              smMdLgRegistry smMdLg_keys Hw Hperm smMdLg_constructed)
    as (this' & Hthis' & _ & Hq & _).
  exists this'. now split.
Defined.

(** X15. On the registry of a non-empty breakpoint set of [n] names without
    hyphens, [toRuleSets] returns [4 n - 2 + n (n - 1) / 2] rule sets: [n]
    for [at], [n - 1] for [lessThan], [n - 1] for [greaterThan], [n] for
    [greaterThanOrEqual] and [n (n - 1) / 2] for [between]. *)
Theorem toRuleSets_count
  (propKey : MediaBreakpointProps -> option MediaBreakpointKey)
  (RuleSet : Type)
  (createClassName : string -> string -> string)
  (createRuleSet : string -> string -> RuleSet)
  (o : object) (this : Breakpoints) :
  NoDup (Object_keys o) ->
  Forall (fun b => hyphenFree b = true) (Object_keys o) ->
  o <> [] ->
  constructor propKey o = Return this ->
  exists rules,
    toRuleSets RuleSet createClassName createRuleSet this = Return rules /\
    (2 * List.length rules + 4
     = List.length o * (List.length o + 7))%nat.
Proof.
  intros Hkeys Hfree Hne Hthis.
  destruct (constructor_Return propKey o this Hthis)
    as (q & -> & H1 & H2 & H3 & H4 & H5).
  assert (Hnd := sortBreakpoints_NoDup o Hkeys).
  assert (Hlen : List.length (sortBreakpoints o) = List.length o).
  { rewrite (Permutation_length (sortBreakpoints_perm o Hkeys)).
    apply length_map. }
  assert (Hfree' : Forall (fun b => hyphenFree b = true) (sortBreakpoints o)).
  { rewrite Forall_forall in *. intros b Hb. apply Hfree.
    now apply sortBreakpoints_In. }
  assert (Hkeylen : forall m : Map, List.length m = List.length (Map_keys m))
    by (intros m; unfold Map_keys; now rewrite length_map).
  set (this := mkBreakpoints (sortBreakpoints o) o (Some q)) in *.
  eexists. split; [now apply toRuleSets_flat|].
  rewrite ruleSetsOf_length. unfold queryCount. rewrite !Hkeylen.
  rewrite betweenCombinations_pairs in H5.
  rewrite (createQueries_keys propKey this K_between _ _ H5
             (joined_pairs_NoDup _ Hnd Hfree')), length_map.
  assert (Hpairs := orderedPairs_length (sortBreakpoints o)).
  rewrite (createQueries_keys propKey this K_at _ _ H1)
    by (cbn [as_union breakpointKey]; now rewrite map_id).
  rewrite (createQueries_keys propKey this K_greaterThanOrEqual _ _ H4)
    by (cbn [as_union breakpointKey]; now rewrite map_id).
  destruct (sortBreakpoints o) as [|first rest] eqn:Hs.
  { destruct o; [congruence|discriminate Hlen]. }
  assert (Hlast : first :: rest <> []) by discriminate.
  cbn [slice_from skipn] in H2.
  rewrite (createQueries_keys propKey this K_lessThan _ _ H2)
    by (cbn [as_union breakpointKey]; rewrite map_id; now inversion Hnd).
  assert (Hinit : NoDup (slice_init (first :: rest))).
  { unfold slice_init. rewrite (app_removelast_last first Hlast) in Hnd.
    now apply NoDup_app_remove_r in Hnd. }
  rewrite (createQueries_keys propKey this K_greaterThan _ _ H3)
    by (cbn [as_union breakpointKey]; now rewrite map_id).
  rewrite !length_map.
  assert (Hinitlen : S (List.length (slice_init (first :: rest)))
                     = List.length (first :: rest)).
  { unfold slice_init. rewrite (app_removelast_last first Hlast) at 2.
    rewrite length_app. cbn [List.length]. lia. }
  rewrite <- Hlen. cbn [operand] in *. unfold Tuple in *.
  set (p := List.length (orderedPairs (first :: rest))) in *.
  set (i := List.length (slice_init (first :: rest))) in *.
  cbn [List.length] in *.
  set (r := List.length rest) in *. clearbody p i r.
  replace (S r - 1)%nat with r in Hpairs by lia. nia.
Qed.

Lemma toRuleSets_count_witness :
  NoDup (Object_keys smMdLg) /\
  Forall (fun b => hyphenFree b = true) (Object_keys smMdLg) /\
  smMdLg <> [] /\
  constructor propKey_first smMdLg = Return smMdLgRegistry /\
  exists rules,
    toRuleSets (string * string) (fun type breakpoint => type +++ "-" +++ breakpoint)
      pair smMdLgRegistry = Return rules /\
    (2 * List.length rules + 4 = 3 * (3 + 7))%nat.
Proof.
  assert (Hfree : Forall (fun b => hyphenFree b = true) (Object_keys smMdLg))
    by (repeat constructor).
  assert (Hne : smMdLg <> []) by discriminate.
  split; [exact smMdLg_keys|]. split; [exact Hfree|]. split; [exact Hne|].
  split; [exact smMdLg_constructed|].
  exact (toRuleSets_count propKey_first (string * string)
           (fun type breakpoint => type +++ "-" +++ breakpoint) pair
           smMdLg smMdLgRegistry smMdLg_keys Hfree Hne smMdLg_constructed).
Defined.

(** X18. On the registry of any breakpoint set, [lessThan] of the smallest
    breakpoint, the one directive of that kind for which the constructor
    precomputes no query, is admitted for no render list of names of the
    set. *)
Theorem lessThan_smallest_never_admitted
  (propKey : MediaBreakpointProps -> option MediaBreakpointKey)
  (o : object) (this : Breakpoints) (first : string) (rest : list string)
  (onlyRenderAt : list string) :
  propKey_single propKey ->
  NoDup (Object_keys o) ->
  constructor propKey o = Return this ->
  _sortedBreakpoints this = first :: rest ->
  Forall (fun a => In a (Object_keys o)) onlyRenderAt ->
  shouldRenderMediaQuery propKey this (singleProp K_lessThan first) onlyRenderAt
  = Return (Some false) /\
  exists q,
    _mediaQueries this = Some q /\ Map_get (q_lessThan q) first = None.
Proof.
  intros Hone Hkeys Hthis Hs Hknown.
  registry_facts Hone Hkeys Hthis.
  assert (Hs' : sortBreakpoints o = [] ++ first :: rest) by now rewrite <- Hsorted.
  assert (Hin : In first (Object_keys o)).
  { apply (sortBreakpoints_In o first Hkeys). rewrite Hs'. now left. }
  destruct (Object_get_present o first Hin) as [w Hw].
  assert (Hfirst := Object_get_Num_In o first w Hw).
  destruct (sorted_around o Hkeys [] rest first w Hs' Hfirst) as [_ Hhi].
  split.
  - rewrite (admit_lessThan propKey Hone), Hobj, Hw. do 2 f_equal.
    destruct (lt _ _) eqn:Hlt; [exfalso|reflexivity].
    apply (lt_min_exists o Hkeys onlyRenderAt Hknown) in Hlt
      as (a & wa & _ & Ha & Hlt).
    destruct (sorted_place o Hkeys [] rest first a wa Hs' Ha) as [[]|[->|Hrest]].
    + rewrite (width_of_name o Hkeys first wa w Ha Hfirst) in Hlt. lia.
    + specialize (Hhi a wa Hrest Ha). lia.
  - destruct (constructor_Return propKey o this Hthis)
      as (q & Heq & _ & H2 & _).
    exists q. split; [now rewrite Heq|].
    apply Map_get_absent.
    rewrite <- Hsorted, Hs in H2. cbn [slice_from skipn] in H2.
    rewrite Hs in Hnd. inversion Hnd as [|? ? Hnotin Hnd']; subst.
    rewrite (createQueries_keys propKey this K_lessThan _ _ H2);
      cbn [as_union breakpointKey]; rewrite map_id; assumption.
Qed.

Lemma lessThan_smallest_never_admitted_witness :
  propKey_single propKey_first /\
  NoDup (Object_keys smMdLg) /\
  constructor propKey_first smMdLg = Return smMdLgRegistry /\
  _sortedBreakpoints smMdLgRegistry = ["sm"; "md"; "lg"]%string /\
  Forall (fun a => In a (Object_keys smMdLg)) ["sm"; "lg"]%string /\
  shouldRenderMediaQuery propKey_first smMdLgRegistry
    (singleProp K_lessThan "sm"%string) ["sm"; "lg"]%string
  = Return (Some false).
Proof.
  assert (Hknown : Forall (fun a => In a (Object_keys smMdLg)) ["sm"; "lg"]%string)
    by (repeat constructor; cbn; tauto).
  split; [exact propKey_first_single|]. split; [exact smMdLg_keys|].
  split; [exact smMdLg_constructed|]. split; [reflexivity|].
  split; [exact Hknown|].
  exact (proj1 (lessThan_smallest_never_admitted propKey_first smMdLg
                  smMdLgRegistry "sm"%string ["md"; "lg"]%string
                  ["sm"; "lg"]%string propKey_first_single smMdLg_keys
                  smMdLg_constructed eq_refl Hknown)).
Defined.

(** X19. For a name [b] of the set and a non-empty render list of names of
    the set, [lessThan(b)] or [greaterThanOrEqual(b)] is admitted; for a
    render list of one name exactly one of the two is. *)
Theorem lessThan_or_greaterThanOrEqual_admitted
  (propKey : MediaBreakpointProps -> option MediaBreakpointKey)
  (this : Breakpoints) (b : string) (onlyRenderAt : list string) :
  propKey_single propKey ->
  In b (Object_keys (_breakpoints this)) ->
  onlyRenderAt <> [] ->
  Forall (fun a => In a (Object_keys (_breakpoints this))) onlyRenderAt ->
  exists below atLeast,
    shouldRenderMediaQuery propKey this (singleProp K_lessThan b) onlyRenderAt
    = Return (Some below) /\
    shouldRenderMediaQuery propKey this (singleProp K_greaterThanOrEqual b)
      onlyRenderAt
    = Return (Some atLeast) /\
    below || atLeast = true /\
    (forall a, onlyRenderAt = [a] -> below = negb atLeast).
Proof.
  intros Hone Hb Hne Hknown.
  rewrite (admit_lessThan propKey Hone),
    (admit_greaterThanOrEqual propKey Hone).
  eexists _, _. split; [reflexivity|]. split; [reflexivity|].
  destruct (Object_get_present _ b Hb) as [w ->].
  destruct (known_widths _ onlyRenderAt Hknown) as [ws0 Hws].
  destruct (widthsOf_nonempty _ onlyRenderAt ws0 Hne Hws) as (w0 & ws & ->).
  rewrite (Math_min_widths _ _ w0 ws Hws), (Math_max_widths _ _ w0 ws Hws).
  rewrite lt_Num, ge_Num, Z.geb_leb.
  assert (Hmin := fold_min_le ws w0). assert (Hmax := fold_max_ge ws w0).
  fold (minimum w0 ws) in Hmin. fold (maximum w0 ws) in Hmax.
  split.
  - destruct (Z.ltb_spec (minimum w0 ws) w), (Z.leb_spec w (maximum w0 ws));
      cbn; try reflexivity; lia.
  - intros a ->. unfold widthsOf in Hws. destruct ws; [|discriminate Hws].
    unfold minimum, maximum. cbn [fold_left].
    destruct (Z.ltb_spec w0 w), (Z.leb_spec w w0); cbn; try reflexivity; lia.
Qed.

Lemma lessThan_or_greaterThanOrEqual_admitted_witness :
  propKey_single propKey_first /\
  In "md"%string (Object_keys (_breakpoints smMdLgRegistry)) /\
  ["lg"%string] <> [] /\
  Forall (fun a => In a (Object_keys (_breakpoints smMdLgRegistry)))
    ["lg"%string] /\
  exists below atLeast,
    shouldRenderMediaQuery propKey_first smMdLgRegistry
      (singleProp K_lessThan "md"%string) ["lg"%string] = Return (Some below) /\
    shouldRenderMediaQuery propKey_first smMdLgRegistry
      (singleProp K_greaterThanOrEqual "md"%string) ["lg"%string]
    = Return (Some atLeast) /\
    below || atLeast = true.
Proof.
  assert (Hmd : In "md"%string (Object_keys (_breakpoints smMdLgRegistry)))
    by (cbn; tauto).
  assert (Hne : ["lg"%string] <> []) by discriminate.
  assert (Hknown : Forall (fun a => In a (Object_keys (_breakpoints smMdLgRegistry)))
                     ["lg"%string]) by (repeat constructor; cbn; tauto).
  split; [exact propKey_first_single|]. split; [exact Hmd|].
  split; [exact Hne|]. split; [exact Hknown|].
  destruct (lessThan_or_greaterThanOrEqual_admitted propKey_first smMdLgRegistry
              "md"%string ["lg"%string] propKey_first_single Hmd Hne Hknown)
    as (below & atLeast & H1 & H2 & H3 & _).
  exists below, atLeast. repeat split; assumption.
Defined.
